(** * lit: the object store and the tree listing of [cmd.go]

    A shallow embedding of the commands [hash-object], [cat-file] and
    [ls-tree] of lit (a minimal Git written in Go), of the library
    functions they call, and the properties of the object store that follow
    from the code.

    Go strings and byte slices are both sequences of bytes; they are
    modelled as lists of 8-bit characters.  The file system is a finite map
    from resolved paths to nodes and is threaded through every command. *)

From Stdlib Require Import ZArith List Ascii String Lia Bool.
From Stdlib Require Import Permutation Sorted DecimalNat.
From stdpp Require Import base option list strings gmap.

Local Open Scope Z_scope.
Local Open Scope nat_scope.

(** ** Bytes *)

Abbreviation byte := ascii (only parsing).
Abbreviation bytes := (list ascii) (only parsing).

(** A Go string literal. *)
Definition str (s : string) : bytes := list_ascii_of_string s.

Definition NUL : byte := Ascii.zero.
Definition SP : byte := " "%char.
Definition SLASH : byte := "/"%char.
Definition LF : byte := "010"%char.

Definition byte_val (b : byte) : Z := Z.of_N (N_of_ascii b).
Definition byte_of (z : Z) : byte := ascii_of_N (Z.to_N (z mod 256)).

(** ** [fmt]: the verbs [%d] and [%x] *)

Fixpoint digits (d : Decimal.uint) : bytes :=
  match d with
  | Decimal.Nil => []
  | Decimal.D0 d => "0"%char :: digits d
  | Decimal.D1 d => "1"%char :: digits d
  | Decimal.D2 d => "2"%char :: digits d
  | Decimal.D3 d => "3"%char :: digits d
  | Decimal.D4 d => "4"%char :: digits d
  | Decimal.D5 d => "5"%char :: digits d
  | Decimal.D6 d => "6"%char :: digits d
  | Decimal.D7 d => "7"%char :: digits d
  | Decimal.D8 d => "8"%char :: digits d
  | Decimal.D9 d => "9"%char :: digits d
  end.

(** [%d] of a non-negative integer (a file size). *)
Definition fmt_d (n : nat) : bytes := digits (Nat.to_uint n).

(** The inverse reading of a decimal field, used to state what the
    declared length of an envelope is. *)
Fixpoint undigits (s : bytes) : option Decimal.uint :=
  match s with
  | [] => Some Decimal.Nil
  | c :: s =>
      d ← undigits s;
      if decide (c = "0"%char) then Some (Decimal.D0 d)
      else if decide (c = "1"%char) then Some (Decimal.D1 d)
      else if decide (c = "2"%char) then Some (Decimal.D2 d)
      else if decide (c = "3"%char) then Some (Decimal.D3 d)
      else if decide (c = "4"%char) then Some (Decimal.D4 d)
      else if decide (c = "5"%char) then Some (Decimal.D5 d)
      else if decide (c = "6"%char) then Some (Decimal.D6 d)
      else if decide (c = "7"%char) then Some (Decimal.D7 d)
      else if decide (c = "8"%char) then Some (Decimal.D8 d)
      else if decide (c = "9"%char) then Some (Decimal.D9 d)
      else None
  end.

Definition atoi (s : bytes) : option nat :=
  match s with
  | [] => None
  | _ => Nat.of_uint <$> undigits s
  end.

Definition hexdigit (z : Z) : byte :=
  nth (Z.to_nat z) (str "0123456789abcdef") "?"%char.

(** [%x] of a byte slice: two lowercase digits per byte. *)
Definition fmt_x (l : bytes) : bytes :=
  flat_map (fun b => [hexdigit (byte_val b / 16); hexdigit (byte_val b mod 16)]%Z) l.

(** ** [crypto/sha1] *)

Module SHA1.

Local Open Scope Z_scope.

Definition wrap32 (x : Z) : Z := x mod 4294967296.

Definition rotl (n x : Z) : Z :=
  Z.lor (wrap32 (Z.shiftl x n)) (Z.shiftr x (32 - n)).

Definition not32 (x : Z) : Z := Z.lxor x 4294967295.

Definition be32 (x : Z) : list Z :=
  [Z.shiftr x 24 mod 256; Z.shiftr x 16 mod 256; Z.shiftr x 8 mod 256; x mod 256].

Definition be64 (x : Z) : list Z :=
  be32 (Z.shiftr x 32) ++ be32 (x mod 4294967296).

Definition word_of (l : list Z) : Z :=
  fold_left (fun acc b => acc * 256 + b) l 0.

Fixpoint words (n : nat) (l : list Z) : list Z :=
  match n with
  | O => []
  | S k => word_of (take 4 l) :: words k (drop 4 l)
  end.

(** The padded message: the byte 0x80, zeros up to 56 modulo 64, and the
    length in bits as a 64-bit big-endian integer. *)
Definition padding (len : nat) : list Z :=
  let r := (len mod 64)%nat in
  let zeros := (if r <? 56 then 55 - r else 119 - r)%nat in
  128 :: repeat 0 zeros ++ be64 (8 * Z.of_nat len).

(** The message schedule, newest word first. *)
Fixpoint schedule (n : nat) (w : list Z) : list Z :=
  match n with
  | O => w
  | S k =>
      let x := Z.lxor (Z.lxor (nth 2 w 0) (nth 7 w 0))
                      (Z.lxor (nth 13 w 0) (nth 15 w 0)) in
      schedule k (rotl 1 x :: w)
  end.

Definition state : Type := Z * Z * Z * Z * Z.

Definition init : state :=
  (0x67452301, 0xEFCDAB89, 0x98BADCFE, 0x10325476, 0xC3D2E1F0).

Definition round (st : state) (tw : nat * Z) : state :=
  let '(a, b, c, d, e) := st in
  let '(t, w) := tw in
  let f :=
    if (t <? 20)%nat then Z.lor (Z.land b c) (Z.land (not32 b) d)
    else if (t <? 40)%nat then Z.lxor (Z.lxor b c) d
    else if (t <? 60)%nat then Z.lor (Z.land (Z.lor b c) d) (Z.land b c)
    else Z.lxor (Z.lxor b c) d in
  let k :=
    if (t <? 20)%nat then 0x5A827999
    else if (t <? 40)%nat then 0x6ED9EBA1
    else if (t <? 60)%nat then 0x8F1BBCDC
    else 0xCA62C1D6 in
  (wrap32 (rotl 5 a + f + e + w + k), a, rotl 30 b, c, d).

Definition block (h : state) (p : list Z) : state :=
  let w := rev (schedule 64 (rev (words 16 p))) in
  let '(a, b, c, d, e) := fold_left round (combine (seq 0 80) w) h in
  let '(h0, h1, h2, h3, h4) := h in
  (wrap32 (h0 + a), wrap32 (h1 + b), wrap32 (h2 + c), wrap32 (h3 + d),
   wrap32 (h4 + e)).

Fixpoint blocks (n : nat) (h : state) (p : list Z) : state :=
  match n with
  | O => h
  | S k => blocks k (block h (take 64 p)) (drop 64 p)
  end.

(** [sha1.Sum]: the 20-byte digest of [data]. *)
Definition Sum (data : bytes) : bytes :=
  let p := map byte_val data ++ padding (length data) in
  let '(h0, h1, h2, h3, h4) := blocks (length p / 64) init p in
  map byte_of (be32 h0 ++ be32 h1 ++ be32 h2 ++ be32 h3 ++ be32 h4).

End SHA1.

(** ** Outcomes of a command

    A command prints to standard output and returns ([Done]), prints a
    message to standard error and calls [os.Exit(1)] ([Exit1]), or stops in
    a run-time panic.  [Diverge] is the answer of a loop model whose fuel
    ran out; [parseEntries_fuel] shows the tree loop never gives it. *)

Inductive panic : Type :=
  | SliceBounds   (* slice bounds out of range *)
  | IndexRange.   (* index out of range *)

Inductive outcome (A : Type) : Type :=
  | Done (a : A)
  | Exit1 (stderr : string)
  | Panic (p : panic)
  | Diverge.

Arguments Done {A} a.
Arguments Exit1 {A} stderr.
Arguments Panic {A} p.
Arguments Diverge {A}.

#[global] Instance outcome_ret : MRet outcome := fun A a => Done a.

#[global] Instance outcome_bind : MBind outcome := fun A B k m =>
  match m with
  | Done a => k a
  | Exit1 e => Exit1 e
  | Panic p => Panic p
  | Diverge => Diverge
  end.

(** ** The file system

    A node is a regular file or a directory; the store maps a resolved
    path (its components below the working directory) to its node.
    Resolution drops empty components and [.]; a path that ends in a
    slash or in [.] names a directory, and a regular file is not reached
    through it.  Paths with [..] and links are left out: the paths the
    commands build contain none.  Writing to a file that was created does
    not fail. *)

Inductive node : Type :=
  | File (data : bytes)
  | Dir.

Abbreviation FS := (gmap (list (list ascii)) node) (only parsing).

Fixpoint components (p : bytes) : list bytes :=
  match p with
  | [] => [[]]
  | c :: p =>
      if decide (c = SLASH) then [] :: components p
      else match components p with
           | w :: ws => (c :: w) :: ws
           | [] => [[c]]
           end
  end.

Definition resolve (p : bytes) : list bytes :=
  filter (fun c => c <> [] /\ c <> str ".") (components p).

(** A path whose last component is empty (it ends in a slash) or [.]:
    what it names must be a directory. *)
Definition dirForm (p : bytes) : bool :=
  match last (components p) with
  | Some c => bool_decide (c = [] \/ c = str ".")
  | None => false
  end.

(** [os.Open]: the node at [p]; a directory can be opened too, and a
    regular file only through a path that does not ask for a directory
    (the system call fails with ENOTDIR otherwise). *)
Definition os_Open (fs : FS) (p : bytes) : option node :=
  match p with
  | [] => None
  | _ => match resolve p with
         | [] => Some Dir
         | q => match fs !! q with
                | Some (File data) =>
                    if dirForm p then None else Some (File data)
                | n => n
                end
         end
  end.

(** [os.ReadFile]: the bytes of a regular file. *)
Definition os_ReadFile (fs : FS) (p : bytes) : option bytes :=
  match os_Open fs p with
  | Some (File data) => Some data
  | _ => None
  end.

(** [os.Stat] and [Size()]: a regular file is as large as the bytes it
    holds; the size of a directory is left at zero. *)
Definition os_Stat (fs : FS) (p : bytes) : option nat :=
  match os_Open fs p with
  | Some (File data) => Some (length data)
  | Some Dir => Some 0
  | None => None
  end.

(** [filepath.Dir], on resolved paths. *)
Definition filepath_Dir (p : bytes) : list bytes := removelast (resolve p).

(** [os.MkdirAll] on the reversed path [rq]: nothing to do when the path
    is a directory, an error when it is a file, otherwise the parent is
    made first and then the directory itself. *)
Fixpoint MkdirAll_rev (fs : FS) (rq : list bytes) : option FS :=
  match rq with
  | [] => Some fs
  | _ :: parent =>
      match fs !! rev rq with
      | Some Dir => Some fs
      | Some (File _) => None
      | None => fs' ← MkdirAll_rev fs parent; Some (<[rev rq := Dir]> fs')
      end
  end.

Definition os_MkdirAll (fs : FS) (q : list bytes) : option FS :=
  MkdirAll_rev fs (rev q).

Definition is_dir (fs : FS) (q : list bytes) : bool :=
  match q with
  | [] => true
  | _ => match fs !! q with Some Dir => true | _ => false end
  end.

(** [os.Create] followed by [f.Write(data)] and [f.Close()]: the file is
    created or truncated, inside an existing directory; a path that asks
    for a directory creates nothing. *)
Definition os_Create (fs : FS) (p : bytes) : option (list bytes) :=
  let q := resolve p in
  match q with
  | [] => None
  | _ =>
      if dirForm p then None
      else
        match fs !! q with
        | Some Dir => None
        | _ => if is_dir fs (removelast q) then Some q else None
        end
  end.

Definition file_Write (fs : FS) (q : list bytes) (data : bytes) : FS :=
  <[q := File data]> fs.

(** ** Byte slices with spare capacity

    A slice of a Go byte array: [elems] are the bytes below its length and
    [spare] the bytes of the backing array between its length and its
    capacity.  An index expression [s[i]] is checked against the length, a
    slice expression [s[i:j]] against the capacity. *)

Record slice : Type := { elems : bytes; spare : bytes }.

Definition len (s : slice) : nat := length (elems s).
Definition cap (s : slice) : nat := length (elems s) + length (spare s).

(** [s[i:j]] *)
Definition reslice (s : slice) (i j : nat) : outcome bytes :=
  if (i <=? j) && (j <=? cap s)
  then Done (take (j - i) (drop i (elems s ++ spare s)))
  else Panic SliceBounds.

(** [s[i:]], for [i] within the length. *)
Definition slice_from (s : slice) (i : nat) : slice :=
  {| elems := drop i (elems s); spare := spare s |}.

(** ** Objects *)

(** [fmt.Sprintf("blob %d\x00%s", size, content)] *)
Definition headerAndContent (size : nat) (content : bytes) : bytes :=
  str "blob " ++ fmt_d size ++ [NUL] ++ content.

(** The loop that spells the object path out of the hash, one character at
    a time, with a slash after the character of index 1 (the characters of
    a hash are hexadecimal digits, one byte each). *)
Fixpoint appendRunes (i : nat) (blobName : bytes) (blobPath : bytes) : bytes :=
  match blobName with
  | [] => blobPath
  | v :: rest =>
      let blobPath := blobPath ++ [v] in
      let blobPath := if decide (i = 1) then blobPath ++ [SLASH] else blobPath in
      appendRunes (S i) rest blobPath
  end.

Definition blobPath (hash : bytes) : bytes :=
  appendRunes 0 hash (str "./.git/objects/").

(** [dir, fileName := sha[:2], sha[2:]] and the path printed from them;
    slicing a string of fewer than two bytes panics. *)
Definition objectPath (sha : bytes) : outcome bytes :=
  if length sha <? 2 then Panic SliceBounds
  else
    let dir := take 2 sha in
    let fileName := drop 2 sha in
    Done (str ".git/objects/" ++ dir ++ [SLASH] ++ fileName).

(** The index of the first NUL byte ([None] for the source's [-1]). *)
Definition nullIndex (content : bytes) : option nat :=
  fst <$> list_find (fun b => b = NUL) content.

(** The split of a decompressed object at its first NUL byte into header
    and body; [None] where the source reports that no NUL was found. *)
Definition splitObject (content : bytes) : option (bytes * bytes) :=
  n ← nullIndex content;
  Some (take n content, drop (n + 1) content).

(** The identifier [hash-object] prints for a file of this content. *)
Definition blobId (content : bytes) : bytes :=
  fmt_x (SHA1.Sum (headerAndContent (length content) content)).

(** The characters of an identifier. *)
Definition hexChar (c : ascii) : Prop := c ∈ str "0123456789abcdef".

(** ** Tree entries *)

Record entry : Type := { Mode : bytes; Name : bytes; Sha : bytes }.

(** [<] on Go strings: byte-wise lexicographic order. *)
Fixpoint bytes_lt (a b : bytes) : bool :=
  match a, b with
  | _, [] => false
  | [], _ :: _ => true
  | x :: a, y :: b =>
      if (N_of_ascii x <? N_of_ascii y)%N then true
      else if (N_of_ascii y <? N_of_ascii x)%N then false
      else bytes_lt a b
  end.

(** The [less] function handed to [sort.Slice]. *)
Definition byName (a b : entry) : bool := bytes_lt (Name a) (Name b).

(** [a] is not after [b]. *)
Definition notAfter (a b : entry) : Prop := byName b a = false.

(** Entries of the same name are the same entry. *)
Definition namesIdentify (l : list entry) : Prop :=
  forall a b, a ∈ l -> b ∈ l -> Name a = Name b -> a = b.

(** [for treeContent[i] != stop { i++ }], with [rest] the bytes from [i]
    on: running off the end is an index panic. *)
Fixpoint scanFrom (stop : ascii) (rest : bytes) (i : nat) : outcome nat :=
  match rest with
  | [] => Panic IndexRange
  | b :: rest => if decide (b = stop) then Done i else scanFrom stop rest (S i)
  end.

Definition scan (stop : ascii) (treeContent : slice) (i : nat) : outcome nat :=
  scanFrom stop (drop i (elems treeContent)) i.

(** The loop [for i < len(treeContent)] of [LsTree]. *)
Fixpoint parseEntries (fuel : nat) (treeContent : slice) (i : nat)
    (entries : list entry) : outcome (list entry) :=
  if len treeContent <=? i then Done entries
  else
    match fuel with
    | O => Diverge
    | S fuel =>
        let modeStart := i in
        i ← scan SP treeContent i;
        mode ← reslice treeContent modeStart i;
        let i := S i in
        let nameStart := i in
        i ← scan NUL treeContent i;
        name ← reslice treeContent nameStart i;
        let i := S i in
        shaBytes ← reslice treeContent i (i + 20);
        let sha := fmt_x shaBytes in
        let i := i + 20 in
        parseEntries fuel treeContent i
          (entries ++ [{| Mode := mode; Name := name; Sha := sha |}])
    end.

Definition parseTree (treeContent : slice) : outcome (list entry) :=
  parseEntries (len treeContent) treeContent 0 [].

(** The final loop of [LsTree]: one line per entry. *)
Definition printEntries (nameOnly : bool) (entries : list entry) : bytes :=
  flat_map (fun e =>
    if nameOnly then Name e ++ [LF]
    else Mode e ++ [SP] ++ Name e ++ [SP] ++ Sha e ++ [LF]) entries.

(** The bytes of one entry as a tree object stores it, with [Sha] the raw
    20-byte identifier, and of a list of entries in the order given. *)
Definition entryBytes (e : entry) : bytes :=
  Mode e ++ [SP] ++ Name e ++ [NUL] ++ Sha e.

Definition treeBytes (es : list entry) : bytes := flat_map entryBytes es.

(** An entry the loop can read back: no space in the mode, no NUL in the
    name, twenty identifier bytes. *)
Definition wellFormed (e : entry) : Prop :=
  (SP ∉ Mode e) /\ (NUL ∉ Name e) /\ length (Sha e) = 20.

(** What the loop makes of a stored entry: the identifier in hexadecimal. *)
Definition listed (e : entry) : entry :=
  {| Mode := Mode e; Name := Name e; Sha := fmt_x (Sha e) |}.

(** ** Insertion sort

    Every element moves left past the elements that are greater: what
    [sort.Slice] does on a short slice.  It sorts the entries of [Encode]
    and stands for [sort.Slice] where [LsTree] is run on concrete inputs. *)

Fixpoint insertBy {A} (less : A -> A -> bool) (x : A) (l : list A) : list A :=
  match l with
  | [] => [x]
  | y :: l' => if less y x then y :: insertBy less x l' else x :: l
  end.

Fixpoint insertionSort {A} (less : A -> A -> bool) (l : list A) : list A :=
  match l with
  | [] => []
  | x :: l => insertBy less x (insertionSort less l)
  end.

(** ** [compress/zlib]

    Reading a stream through a [zlib.Reader] fails when the reader is made,
    fails when it is read to the end, or gives the bytes. *)
Inductive inflated : Type :=
  | BadHeader            (* zlib.NewReader fails *)
  | BadStream            (* io.ReadAll of the reader fails *)
  | Inflated (data : bytes).

(** A compressor that stores the bytes as they are, to run the commands on
    concrete inputs. *)
Definition stored_deflate (data : bytes) : bytes := data.
Definition stored_inflate (data : bytes) : inflated := Inflated data.

(** ** Encoding a tree *)

(** Modelled from the spec: [WriteTree], the command main.go dispatches
    [write-tree] to, is not among the sources.  Section 4.3 has [Encode]
    sort the entries by name, ascending and byte-wise, and concatenate each
    as mode, a space, the name, a NUL byte and the raw identifier. *)
Definition Encode (entries : list entry) : bytes :=
  treeBytes (insertionSort byName entries).

(** Modelled from the spec: the envelope of section 3 for any type label,
    to compare with the one [HashObject] builds. *)
Definition Frame (label payload : bytes) : bytes :=
  label ++ [SP] ++ fmt_d (length payload) ++ [NUL] ++ payload.

(** Modelled from the spec: a header of the form [<label> <decimal-length>]. *)
Definition headerForm (header : bytes) : Prop :=
  exists (label : bytes) (size : nat), header = label ++ SP :: fmt_d size.

(** ** The commands *)

Section Commands.

(** [compress/zlib]: writing [data] through a [zlib.Writer], and reading a
    stream back through a [zlib.Reader]. *)
Variable zlib_deflate : bytes -> bytes.
Variable zlib_inflate : bytes -> inflated.

(** [sort.Slice]: an unspecified, not necessarily stable sorting algorithm. *)
Variable sort_Slice : (entry -> entry -> bool) -> list entry -> list entry.

(** [HashObject], with [write] the flag [-w] and [args] the arguments left
    after the flags.  The identifier goes to standard output. *)
Definition HashObject (write : bool) (args : list bytes) (fs : FS)
    : outcome bytes * FS :=
  let filePath := hd [] args in
  match os_ReadFile fs filePath with
  | None => (Exit1 "Could not open the file", fs)
  | Some content =>
  match os_Stat fs filePath with
  | None => (Exit1 "Could not open the file", fs)
  | Some size =>
      let headerAndContent := headerAndContent size content in
      let sha := SHA1.Sum headerAndContent in
      let hash := fmt_x sha in
      let blobPath := blobPath hash in
      let buffer := zlib_deflate headerAndContent in
      if write then
        match os_MkdirAll fs (filepath_Dir blobPath) with
        | None => (Exit1 "Could not create the directory ", fs)
        | Some fs =>
            match os_Create fs blobPath with
            | None => (Exit1 "error creating the file", fs)
            | Some f => (Done hash, file_Write fs f buffer)
            end
        end
      else (Done hash, fs)
  end
  end.

(** [CatFile], with [prettyPrint] the flag [-p].  A directory can be
    opened, and the reader made on it fails. *)
Definition CatFile (prettyPrint : bool) (args : list bytes) (fs : FS)
    : outcome bytes :=
  match args with
  | [] => Exit1 "usage: mygit cat-file -flag<optional> <SHA>"
  | fileSHA :: _ =>
      filePath ← objectPath fileSHA;
      match os_Open fs filePath with
      | None => Exit1 "Failed to open object"
      | Some Dir => Exit1 "Failed to create zlib reader"
      | Some (File file) =>
          match zlib_inflate file with
          | BadHeader => Exit1 "Failed to create zlib reader"
          | BadStream => Exit1 "Failed to read object content"
          | Inflated content =>
              match splitObject content with
              | None => Exit1 "Invalid Git object format (no null byte found)"
              | Some (header, body) =>
                  Done (if prettyPrint then body else header)
              end
          end
      end
  end.

(** The entries [LsTree] goes on to print: those of the loop, sorted. *)
Definition listEntries (treeContent : slice) : outcome (list entry) :=
  entries ← parseTree treeContent;
  Done (sort_Slice byName entries).

(** [LsTree], with [nameOnly] the flag [--name-only]; [readAll] is what
    [io.ReadAll] left in its buffer beyond the bytes it returns, the spare
    capacity of [decompressedData]. *)
Definition LsTree (nameOnly : bool) (args : list bytes) (readAll : bytes)
    (fs : FS) : outcome bytes :=
  let treeSha := hd [] args in
  filePath ← objectPath treeSha;
  match os_Open fs filePath with
  | None => Exit1 "Failed to open object"
  | Some Dir => Exit1 "Failed to read file"
  | Some (File data) =>
      match zlib_inflate data with
      | BadHeader => Exit1 "Failsed to decompress object"
      | BadStream => Exit1 "Failed to read decompressed data"
      | Inflated data =>
          let decompressedData := {| elems := data; spare := readAll |} in
          match nullIndex data with
          | None => Exit1 "Invalid format"
          | Some nullIndex =>
              let treeContent := slice_from decompressedData (nullIndex + 1) in
              entries ← listEntries treeContent;
              Done (printEntries nameOnly entries)
          end
      end
  end.

End Commands.

(** ** [init] *)

(** [os.WriteFile]: the file is created or truncated and written. *)
Definition os_WriteFile (fs : FS) (p : bytes) (data : bytes) : option FS :=
  f ← os_Create fs p; Some (file_Write fs f data).

(** One turn of the loop over the directories of [InitRepository]: an
    error is reported on standard error and the loop goes on. *)
Definition makeDir (st : list string * FS) (dir : bytes) : list string * FS :=
  match os_MkdirAll st.2 (resolve dir) with
  | None => (st.1 ++ ["Error creating directory"], st.2)
  | Some fs => (st.1, fs)
  end.

(** [InitRepository]: what it prints, the errors it reports, and the file
    system it leaves.  It never exits. *)
Definition InitRepository (fs : FS) : bytes * list string * FS :=
  let st :=
    fold_left makeDir [str ".git"; str ".git/objects"; str ".git/refs"]
      ([], fs) in
  let headFileContents := str "ref: refs/heads/main" ++ [LF] in
  let st :=
    match os_WriteFile st.2 (str ".git/HEAD") headFileContents with
    | None => (st.1 ++ ["Error writing file"], st.2)
    | Some fs => (st.1, fs)
    end in
  (str "Initialized git directory" ++ [LF], st.1, st.2).

(** The paths [InitRepository] makes, and what it writes to [HEAD]. *)
Definition gitDir : list bytes := [str ".git"].
Definition objectsDir : list bytes := [str ".git"; str "objects"].
Definition refsDir : list bytes := [str ".git"; str "refs"].
Definition headFile : list bytes := [str ".git"; str "HEAD"].
Definition headContents : bytes := str "ref: refs/heads/main" ++ [LF].

(** ** [flag]: a flag set with one boolean flag, [flag.ExitOnError] *)

Inductive parsed : Type :=
  | Flags (value : bool) (rest : list bytes)   (* the flag, fs.Args() *)
  | FlagError                                  (* os.Exit(2) *)
  | FlagHelp.                                  (* -h or -help: os.Exit(0) *)

(** [strconv.ParseBool] *)
Definition ParseBool (s : bytes) : option bool :=
  if bool_decide (s ∈ [str "1"; str "t"; str "T"; str "TRUE"; str "true";
                       str "True"]) then Some true
  else if bool_decide (s ∈ [str "0"; str "f"; str "F"; str "FALSE";
                            str "false"; str "False"]) then Some false
  else None.

(** The split of [name=value] at the first [=] that is not the first
    character. *)
Fixpoint splitValue (name : bytes) : bytes * option bytes :=
  match name with
  | [] => ([], None)
  | c :: name =>
      if decide (c = "="%char) then ([], Some name)
      else let '(n, v) := splitValue name in (c :: n, v)
  end.

(** [FlagSet.Parse]: [parseOne] until an argument is no flag. *)
Fixpoint parseFlags (flagName : bytes) (value : bool) (args : list bytes)
    : parsed :=
  match args with
  | [] => Flags value []
  | s :: rest =>
      match s with
      | c0 :: c1 :: tl =>
          if negb (bool_decide (c0 = "-"%char)) then Flags value args
          else if bool_decide (c1 = "-"%char) && bool_decide (tl = [])
          then Flags value rest
          else
            let name := if bool_decide (c1 = "-"%char) then tl else c1 :: tl in
            match name with
            | [] => FlagError
            | n0 :: name' =>
                if bool_decide (n0 = "-"%char) || bool_decide (n0 = "="%char)
                then FlagError
                else
                  let '(n, v) := splitValue name' in
                  let name := n0 :: n in
                  if bool_decide (name = flagName) then
                    match v with
                    | None => parseFlags flagName true rest
                    | Some v =>
                        match ParseBool v with
                        | Some b => parseFlags flagName b rest
                        | None => FlagError
                        end
                    end
                  else if bool_decide (name = str "help")
                          || bool_decide (name = str "h")
                  then FlagHelp
                  else FlagError
            end
      | _ => Flags value args
      end
  end.

(** ** [main] *)

(** How the program ends: in a command, or in the flag package. *)
Inductive run : Type :=
  | Ran (o : outcome bytes)
  | FlagExit (code : nat).

Section Main.

Variable zlib_deflate : bytes -> bytes.
Variable zlib_inflate : bytes -> inflated.
Variable sort_Slice : (entry -> entry -> bool) -> list entry -> list entry.

(** [WriteTree] is dispatched to and is not among the sources. *)
Variable WriteTree : FS -> outcome bytes * FS.

Definition withFlags (flagName : bytes) (args : list bytes) (fs : FS)
    (command : bool -> list bytes -> outcome bytes * FS) : run * FS :=
  match parseFlags flagName false args with
  | Flags value rest => let r := command value rest in (Ran r.1, r.2)
  | FlagError => (FlagExit 2, fs)
  | FlagHelp => (FlagExit 0, fs)
  end.

(** [main], on [os.Args]. *)
Definition main (osArgs : list bytes) (readAll : bytes) (fs : FS) : run * FS :=
  match osArgs with
  | _ :: command :: args =>
      if bool_decide (command = str "init") then
        let r := InitRepository fs in (Ran (Done r.1.1), r.2)
      else if bool_decide (command = str "cat-file") then
        withFlags (str "p") args fs
          (fun p rest => (CatFile zlib_inflate p rest fs, fs))
      else if bool_decide (command = str "hash-object") then
        withFlags (str "w") args fs
          (fun w rest => HashObject zlib_deflate w rest fs)
      else if bool_decide (command = str "ls-tree") then
        withFlags (str "name-only") args fs
          (fun n rest =>
             (LsTree zlib_inflate sort_Slice n rest readAll fs, fs))
      else if bool_decide (command = str "write-tree") then
        let r := WriteTree fs in (Ran r.1, r.2)
      else (Ran (Exit1 "Unknown command"), fs)
  | _ => (Ran (Exit1 "usage: mygit <command> [<args>...]"), fs)
  end.

End Main.

(** ** Inputs the commands are run on *)

Definition helloFS : FS := {[ [str "test.txt"] := File (str "hello world") ]}.

Definition helloId : bytes := str "95d09f2b10159347eece71399a7e2e907ea3df4f".

(** A store with one object whose header is the single byte [x]. *)
Definition looseFS : FS :=
  {[ [str ".git"; str "objects"; str "ab"; str "cd"]
     := File (str "x" ++ [NUL] ++ str "y") ]}.

(** Two entries, and a store with one tree object that holds [b] before
    [a]. *)
Definition entryA : entry :=
  {| Mode := str "100644"; Name := str "a"; Sha := str "AAAAAAAAAAAAAAAAAAAA" |}.

Definition entryB : entry :=
  {| Mode := str "40000"; Name := str "b"; Sha := str "BBBBBBBBBBBBBBBBBBBB" |}.

Definition treeFS : FS :=
  {[ [str ".git"; str "objects"; str "ab"; str "cd"]
     := File (str "tree 57" ++ [NUL] ++ treeBytes [entryB; entryA]) ]}.

(** A working directory where [.git] is a regular file; one with two
    files; a store whose only object is an empty tree; one with the
    directory of the objects in [95] and nothing in it; and a working
    directory with a file that holds the bytes of a tree. *)
Definition blockedFS : FS := {[ gitDir := File [] ]}.

Definition twoFilesFS : FS :=
  {[ [str "test.txt"] := File (str "hello world");
     [str "other.txt"] := File (str "hello") ]}.

Definition emptyTreeFS : FS :=
  {[ [str ".git"; str "objects"; str "ab"; str "cd"]
     := File (str "tree 0" ++ [NUL]) ]}.

Definition fanoutFS : FS := {[ [str ".git"; str "objects"; str "95"] := Dir ]}.

Definition treeFileFS : FS :=
  {[ [str "tree.bin"] := File (treeBytes [entryB; entryA]) ]}.

(** A store with a regular file where the directory of the objects in
    [ab] belongs, and one whose only object has no NUL byte. *)
Definition fileFanoutFS : FS :=
  {[ [str ".git"; str "objects"; str "ab"] := File (str "tree 0" ++ [NUL]) ]}.

Definition noNulFS : FS :=
  {[ [str ".git"; str "objects"; str "ab"; str "cd"] := File (str "tree 0") ]}.

(** * Properties *)

(** ** Decimal fields *)

Lemma undigits_digits (d : Decimal.uint) : undigits (digits d) = Some d.
Proof.
  induction d; simpl; try rewrite IHd; reflexivity.
Qed.

Lemma digits_nil (d : Decimal.uint) : digits d = [] -> d = Decimal.Nil.
Proof. destruct d; simpl; congruence. Qed.

Lemma fmt_d_nonempty (n : nat) : fmt_d n <> [].
Proof.
  unfold fmt_d. intros H. apply digits_nil in H.
  pose proof (Unsigned.to_of (Nat.to_uint n)) as E.
  rewrite Unsigned.of_to, H in E. discriminate E.
Qed.

Lemma atoi_fmt_d (n : nat) : atoi (fmt_d n) = Some n.
Proof.
  unfold atoi. pose proof (fmt_d_nonempty n) as Hne.
  destruct (fmt_d n) eqn:E; [congruence|].
  rewrite <- E. unfold fmt_d. rewrite undigits_digits. simpl.
  now rewrite Unsigned.of_to.
Qed.

Lemma digits_Forall (d : Decimal.uint) :
  Forall (fun c => c <> NUL /\ c <> SP /\ c <> SLASH) (digits d).
Proof.
  induction d; simpl; constructor; auto; repeat split; discriminate.
Qed.

Lemma fmt_d_no_NUL (n : nat) : NUL ∉ fmt_d n.
Proof.
  intros H. pose proof (digits_Forall (Nat.to_uint n)) as F.
  rewrite Forall_forall in F. apply F in H. tauto.
Qed.

(** ** Hexadecimal and digests *)

Example sha1_empty :
  fmt_x (SHA1.Sum []) = str "da39a3ee5e6b4b0d3255bfef95601890afd80709".
Proof. vm_compute. reflexivity. Qed.

Example sha1_abc :
  fmt_x (SHA1.Sum (str "abc")) = str "a9993e364706816aba3e25717850c26c9cd0d89d".
Proof. vm_compute. reflexivity. Qed.

Example sha1_two_blocks :
  fmt_x (SHA1.Sum (str "abcdbcdecdefdefgefghfghighijhijkijkljklmklmnlmnomnopnopq"))
  = str "84983e441c3bd26ebaae4aa1f95129e5e54670f1".
Proof. vm_compute. reflexivity. Qed.

Lemma length_fmt_x (l : bytes) : length (fmt_x l) = 2 * length l.
Proof.
  unfold fmt_x. induction l as [|b l IH]; simpl; [reflexivity|].
  rewrite IH. lia.
Qed.

Lemma length_SHA1_Sum (data : bytes) : length (SHA1.Sum data) = 20.
Proof.
  unfold SHA1.Sum.
  destruct (SHA1.blocks _ _ _) as [[[[h0 h1] h2] h3] h4].
  reflexivity.
Qed.

Lemma length_hash (data : bytes) : length (fmt_x (SHA1.Sum data)) = 40.
Proof. rewrite length_fmt_x, length_SHA1_Sum. reflexivity. Qed.

(** ** The first NUL byte *)

Lemma nullIndex_app (header body : bytes) :
  NUL ∉ header -> nullIndex (header ++ NUL :: body) = Some (length header).
Proof.
  intros Hh. unfold nullIndex.
  induction header as [|c header IH]; [reflexivity|].
  rewrite not_elem_of_cons in Hh. destruct Hh as [Hc Hh].
  cbn [app list_find]. rewrite decide_False by congruence.
  specialize (IH Hh).
  destruct (list_find _ _) as [[i x]|]; simpl in *; congruence.
Qed.

Lemma nullIndex_None (content : bytes) :
  nullIndex content = None <-> NUL ∉ content.
Proof.
  unfold nullIndex. rewrite fmap_None, list_find_None, Forall_forall.
  split.
  - intros H Hin. exact (H _ Hin eq_refl).
  - intros H x Hin ->. exact (H Hin).
Qed.

Lemma splitObject_app (header body : bytes) :
  NUL ∉ header -> splitObject (header ++ NUL :: body) = Some (header, body).
Proof.
  intros Hh. unfold splitObject. rewrite (nullIndex_app _ _ Hh). simpl.
  rewrite take_app_length.
  replace (length header + 1) with (length (header ++ [NUL]))
    by (rewrite length_app; reflexivity).
  rewrite (cons_middle NUL header body), app_assoc, drop_app_length.
  reflexivity.
Qed.

Lemma splitObject_None (content : bytes) :
  splitObject content = None <-> NUL ∉ content.
Proof.
  rewrite <- nullIndex_None. unfold splitObject.
  destruct (nullIndex content); simpl; split; congruence.
Qed.

Lemma splitObject_Some (content header body : bytes) :
  splitObject content = Some (header, body) ->
  content = header ++ NUL :: body /\ NUL ∉ header.
Proof.
  unfold splitObject, nullIndex. intros H.
  destruct (list_find _ content) as [[i x]|] eqn:E; simpl in H; [|discriminate].
  injection H as <- <-.
  apply list_find_Some in E as (Hi & -> & Hbefore).
  split.
  - rewrite <- (take_drop i content) at 1. f_equal.
    rewrite (drop_S _ NUL i Hi). f_equal. f_equal. lia.
  - intros Hin. apply list_elem_of_lookup in Hin as [j Hj].
    pose proof (lookup_lt_Some _ _ _ Hj) as Hlt.
    rewrite length_take in Hlt.
    rewrite lookup_take_lt in Hj by lia.
    exact (Hbefore j _ Hj ltac:(lia) eq_refl).
Qed.

Lemma header_no_NUL (size : nat) : NUL ∉ str "blob " ++ fmt_d size.
Proof.
  rewrite not_elem_of_app. split; [|apply fmt_d_no_NUL].
  intros H. repeat (apply elem_of_cons in H as [H|H]; [discriminate H|]).
  inversion H.
Qed.

Lemma splitObject_envelope (content : bytes) :
  splitObject (headerAndContent (length content) content)
  = Some (str "blob " ++ fmt_d (length content), content).
Proof.
  unfold headerAndContent.
  rewrite app_assoc. apply splitObject_app, header_no_NUL.
Qed.

(** ** Paths *)

Lemma appendRunes_tail (i : nat) (blobName acc : bytes) :
  2 <= i -> appendRunes i blobName acc = acc ++ blobName.
Proof.
  revert i acc. induction blobName as [|v rest IH]; intros i acc Hi; simpl.
  - now rewrite app_nil_r.
  - rewrite decide_False by lia. rewrite IH by lia.
    now rewrite <- app_assoc.
Qed.

Lemma blobPath_eq (hash : bytes) :
  2 <= length hash ->
  blobPath hash = str "./.git/objects/" ++ take 2 hash ++ [SLASH] ++ drop 2 hash.
Proof.
  destruct hash as [|a [|b rest]]; simpl; try lia. intros _.
  unfold blobPath. cbn [appendRunes].
  destruct (decide (0 = 1)) as [E|_]; [discriminate E|].
  destruct (decide (1 = 1)) as [_|E]; [|now contradict E].
  rewrite appendRunes_tail by lia.
  now rewrite <- !app_assoc.
Qed.

Lemma objectPath_eq (sha : bytes) :
  2 <= length sha ->
  objectPath sha = Done (str ".git/objects/" ++ take 2 sha ++ [SLASH] ++ drop 2 sha).
Proof.
  intros H. unfold objectPath.
  destruct (Nat.ltb_spec (length sha) 2); [lia|reflexivity].
Qed.

Lemma objectPath_short (sha : bytes) :
  length sha < 2 -> objectPath sha = Panic SliceBounds.
Proof.
  intros H. unfold objectPath.
  destruct (Nat.ltb_spec (length sha) 2); [reflexivity|lia].
Qed.

Lemma components_no_slash (a : bytes) : SLASH ∉ a -> components a = [a].
Proof.
  induction a as [|c a IH]; intros H; simpl; [reflexivity|].
  rewrite not_elem_of_cons in H. destruct H as [Hc Ha].
  rewrite decide_False by congruence. now rewrite IH.
Qed.

Lemma components_app_slash (a b : bytes) :
  SLASH ∉ a -> components (a ++ SLASH :: b) = a :: components b.
Proof.
  induction a as [|c a IH]; intros H; simpl.
  - reflexivity.
  - rewrite not_elem_of_cons in H. destruct H as [Hc Ha].
    rewrite decide_False by congruence. now rewrite IH.
Qed.

Lemma resolve_dot_slash (p : bytes) : resolve (str "./" ++ p) = resolve p.
Proof.
  unfold resolve.
  change (str "./" ++ p) with (str "." ++ SLASH :: p).
  rewrite components_app_slash.
  - rewrite filter_cons_False; [reflexivity|]. intros [_ H]. now apply H.
  - intros H. apply elem_of_cons in H as [H|H]; [discriminate H|inversion H].
Qed.

(** Both directions name the same file. *)
Lemma resolve_blobPath (hash : bytes) :
  2 <= length hash ->
  resolve (blobPath hash)
  = resolve (str ".git/objects/" ++ take 2 hash ++ [SLASH] ++ drop 2 hash).
Proof.
  intros H. rewrite blobPath_eq by assumption.
  change (str "./.git/objects/") with (str "./" ++ str ".git/objects/").
  rewrite <- app_assoc. apply resolve_dot_slash.
Qed.

Lemma hexChar_plain (c : ascii) : hexChar c -> c <> SLASH /\ c <> "."%char.
Proof.
  unfold hexChar. intros H.
  repeat (apply elem_of_cons in H as [->|H]; [split; discriminate|]).
  inversion H.
Qed.

Lemma hexdigit_hexChar (z : Z) : (0 <= z < 16)%Z -> hexChar (hexdigit z).
Proof.
  intros Hz. unfold hexdigit, hexChar.
  assert (Z.to_nat z < 16) as Hn by lia.
  clear Hz.
  destruct (Z.to_nat z) as [|[|[|[|[|[|[|[|[|[|[|[|[|[|[|[|n]]]]]]]]]]]]]]]];
    simpl; try lia;
    repeat (apply elem_of_cons; first [left; reflexivity | right]).
Qed.

Lemma byte_val_bound (b : ascii) : (0 <= byte_val b < 256)%Z.
Proof.
  unfold byte_val. pose proof (N_ascii_bounded b). lia.
Qed.

Lemma fmt_x_hexChar (l : bytes) : Forall hexChar (fmt_x l).
Proof.
  unfold fmt_x. induction l as [|b l IH]; simpl; [constructor|].
  pose proof (byte_val_bound b).
  constructor; [|constructor; [|exact IH]]; apply hexdigit_hexChar.
  - split; [apply Z.div_pos; lia|apply Z.div_lt_upper_bound; lia].
  - apply Z.mod_pos_bound. lia.
Qed.

Lemma hex_no_slash (h : bytes) : Forall hexChar h -> SLASH ∉ h.
Proof.
  rewrite Forall_forall. intros H Hin. apply H, hexChar_plain in Hin. tauto.
Qed.

Lemma hex_not_dot (h : bytes) : Forall hexChar h -> h <> [] -> h <> str ".".
Proof.
  intros H _ ->. apply Forall_inv, hexChar_plain in H. tauto.
Qed.

Lemma components_objects (p : bytes) :
  components (str ".git/objects/" ++ p)
  = str ".git" :: str "objects" :: components p.
Proof.
  change (str ".git/objects/" ++ p)
    with (str ".git" ++ SLASH :: (str "objects" ++ SLASH :: p)).
  rewrite !components_app_slash; [reflexivity| |];
    intros H; repeat (apply elem_of_cons in H as [H|H]; [discriminate H|]);
    inversion H.
Qed.

Lemma resolve_objects_nonempty (p : bytes) :
  resolve (str ".git/objects/" ++ p) <> [].
Proof.
  unfold resolve. rewrite components_objects.
  rewrite filter_cons_True by (split; discriminate). discriminate.
Qed.

Lemma resolve_objectPath (h : bytes) :
  Forall hexChar h -> 3 <= length h ->
  resolve (str ".git/objects/" ++ take 2 h ++ [SLASH] ++ drop 2 h)
  = [str ".git"; str "objects"; take 2 h; drop 2 h].
Proof.
  intros Hhex Hlen. unfold resolve.
  assert (Forall hexChar (take 2 h)) as Ht by now apply Forall_take.
  assert (Forall hexChar (drop 2 h)) as Hd by now apply Forall_drop.
  rewrite components_objects.
  change ([SLASH] ++ drop 2 h) with (SLASH :: drop 2 h).
  rewrite components_app_slash by now apply hex_no_slash.
  rewrite components_no_slash by now apply hex_no_slash.
  assert (take 2 h <> [] /\ drop 2 h <> []) as [Ht0 Hd0].
  { destruct h as [|a [|b [|c h]]]; simpl in Hlen; try lia.
    split; discriminate. }
  rewrite !filter_cons_True; [reflexivity| | | |];
    try (split; [assumption|now apply hex_not_dot]);
    split; discriminate.
Qed.

(** The path of a hexadecimal identifier asks for a directory exactly when
    nothing follows the first two characters. *)
Lemma components_nonempty (p : bytes) : components p <> [].
Proof.
  destruct p as [|c p]; simpl; [discriminate|].
  destruct (decide (c = SLASH)); [discriminate|].
  destruct (components p); discriminate.
Qed.

Lemma components_objectPath (h : bytes) :
  Forall hexChar h ->
  components (str ".git/objects/" ++ take 2 h ++ [SLASH] ++ drop 2 h)
  = [str ".git"; str "objects"; take 2 h; drop 2 h].
Proof.
  intros Hhex. rewrite components_objects.
  change ([SLASH] ++ drop 2 h) with (SLASH :: drop 2 h).
  rewrite components_app_slash by now apply hex_no_slash, Forall_take.
  now rewrite components_no_slash by now apply hex_no_slash, Forall_drop.
Qed.

Lemma dirForm_objectPath (h : bytes) :
  Forall hexChar h -> 3 <= length h ->
  dirForm (str ".git/objects/" ++ take 2 h ++ [SLASH] ++ drop 2 h) = false.
Proof.
  intros Hhex Hlen. unfold dirForm. rewrite components_objectPath by assumption.
  cbn [last]. apply bool_decide_eq_false. intros [E|E].
  - apply (f_equal length) in E. rewrite length_drop in E. simpl in E. lia.
  - revert E. apply hex_not_dot; [now apply Forall_drop|].
    intros E. apply (f_equal length) in E. rewrite length_drop in E.
    simpl in E. lia.
Qed.

Lemma dirForm_two_characters (h : bytes) :
  Forall hexChar h -> length h = 2 ->
  dirForm (str ".git/objects/" ++ take 2 h ++ [SLASH] ++ drop 2 h) = true.
Proof.
  intros Hhex Hlen. unfold dirForm. rewrite components_objectPath by assumption.
  cbn [last]. apply bool_decide_eq_true. left.
  apply length_zero_iff_nil. rewrite length_drop. lia.
Qed.

Lemma dirForm_dot_slash (p : bytes) : dirForm (str "./" ++ p) = dirForm p.
Proof.
  unfold dirForm.
  change (str "./" ++ p) with (str "." ++ SLASH :: p).
  rewrite components_app_slash.
  - pose proof (components_nonempty p) as H.
    destruct (components p) as [|c l]; [now contradict H|reflexivity].
  - intros H. apply elem_of_cons in H as [H|H]; [discriminate H|inversion H].
Qed.

Lemma dirForm_blobPath (h : bytes) :
  Forall hexChar h -> 3 <= length h -> dirForm (blobPath h) = false.
Proof.
  intros Hhex Hlen. rewrite blobPath_eq by lia.
  change (str "./.git/objects/") with (str "./" ++ str ".git/objects/").
  rewrite <- app_assoc, dirForm_dot_slash. now apply dirForm_objectPath.
Qed.

Lemma dirForm_blobId (content : bytes) :
  dirForm (blobPath (blobId content)) = false.
Proof.
  apply dirForm_blobPath; [apply fmt_x_hexChar|].
  unfold blobId. rewrite length_hash. lia.
Qed.

(** ** The order on names *)

Lemma N_of_ascii_inj (x y : ascii) : N_of_ascii x = N_of_ascii y -> x = y.
Proof.
  intros H. rewrite <- (ascii_N_embedding x), <- (ascii_N_embedding y).
  now rewrite H.
Qed.

Lemma bytes_lt_irrefl (a : bytes) : bytes_lt a a = false.
Proof.
  induction a as [|x a IH]; simpl; [reflexivity|].
  now rewrite N.ltb_irrefl.
Qed.

Lemma bytes_lt_asym (a b : bytes) : bytes_lt a b = true -> bytes_lt b a = false.
Proof.
  revert b. induction a as [|x a IH]; intros [|y b]; simpl; try congruence.
  destruct (N.ltb_spec (N_of_ascii x) (N_of_ascii y)),
           (N.ltb_spec (N_of_ascii y) (N_of_ascii x)); try lia; auto.
Qed.

Lemma bytes_lt_total (a b : bytes) :
  bytes_lt a b = false -> bytes_lt b a = false -> a = b.
Proof.
  revert b. induction a as [|x a IH]; intros [|y b]; simpl; try congruence.
  destruct (N.ltb_spec (N_of_ascii x) (N_of_ascii y)),
           (N.ltb_spec (N_of_ascii y) (N_of_ascii x)); try congruence.
  intros Ha Hb. f_equal; [apply N_of_ascii_inj; lia|now apply IH].
Qed.

Lemma bytes_lt_trans (a b c : bytes) :
  bytes_lt a b = true -> bytes_lt b c = true -> bytes_lt a c = true.
Proof.
  revert b c. induction a as [|x a IH]; intros [|y b] [|z c]; simpl;
    try congruence.
  destruct (N.ltb_spec (N_of_ascii x) (N_of_ascii y)),
           (N.ltb_spec (N_of_ascii y) (N_of_ascii x)),
           (N.ltb_spec (N_of_ascii y) (N_of_ascii z)),
           (N.ltb_spec (N_of_ascii z) (N_of_ascii y)),
           (N.ltb_spec (N_of_ascii x) (N_of_ascii z)),
           (N.ltb_spec (N_of_ascii z) (N_of_ascii x));
    try lia; try congruence; eauto.
Qed.

Lemma notAfter_trans (a b c : entry) :
  notAfter a b -> notAfter b c -> notAfter a c.
Proof.
  unfold notAfter, byName. intros Hab Hbc.
  destruct (bytes_lt (Name c) (Name a)) eqn:Hca; [|reflexivity].
  destruct (bytes_lt (Name a) (Name b)) eqn:Hlt.
  - rewrite (bytes_lt_trans _ _ _ Hca Hlt) in Hbc. discriminate.
  - rewrite (bytes_lt_total _ _ Hlt Hab) in Hca. congruence.
Qed.

(** ** Insertion sort returns a sorted permutation *)

Lemma insertBy_Permutation (x : entry) (l : list entry) :
  Permutation (insertBy byName x l) (x :: l).
Proof.
  induction l as [|y l IH]; simpl; [reflexivity|].
  destruct (byName y x); [|reflexivity].
  rewrite IH. apply perm_swap.
Qed.

Lemma insertionSort_Permutation (l : list entry) :
  Permutation (insertionSort byName l) l.
Proof.
  induction l as [|x l IH]; simpl; [reflexivity|].
  rewrite insertBy_Permutation. now rewrite IH.
Qed.

Lemma insertBy_sorted (x : entry) (l : list entry) :
  StronglySorted notAfter l -> StronglySorted notAfter (insertBy byName x l).
Proof.
  induction 1 as [|y l Hs IH Hy]; simpl.
  - repeat constructor.
  - destruct (byName y x) eqn:E.
    + constructor; [exact IH|].
      rewrite Forall_forall. intros z Hz.
      rewrite insertBy_Permutation in Hz.
      apply elem_of_cons in Hz as [->|Hz].
      * unfold notAfter, byName in *. now apply bytes_lt_asym.
      * rewrite Forall_forall in Hy. now apply Hy.
    + constructor; [now constructor|].
      constructor; [exact E|].
      eapply Forall_impl; [exact Hy|].
      intros z Hz. now apply (notAfter_trans x y z).
Qed.

Lemma insertionSort_sorted (l : list entry) :
  StronglySorted notAfter (insertionSort byName l).
Proof.
  induction l as [|x l IH]; simpl; [constructor|].
  now apply insertBy_sorted.
Qed.

(** Two sorted arrangements of the same entries are equal as soon as
    entries of the same name are the same entry. *)
Lemma sorted_Permutation_eq (l1 l2 : list entry) :
  namesIdentify l1 ->
  StronglySorted notAfter l1 -> StronglySorted notAfter l2 ->
  Permutation l1 l2 -> l1 = l2.
Proof.
  revert l2. induction l1 as [|x l1 IH]; intros l2 Hid S1 S2 P.
  - now apply Permutation_nil in P.
  - destruct l2 as [|y l2]; [now apply Permutation_sym, Permutation_nil in P|].
    apply StronglySorted_inv in S1 as [S1 F1].
    apply StronglySorted_inv in S2 as [S2 F2].
    assert (x = y) as ->.
    { assert (x ∈ y :: l2) as Hx by (rewrite <- P; left).
      assert (y ∈ x :: l1) as Hy by (rewrite P; left).
      apply elem_of_cons in Hx as [Hx|Hx]; [exact Hx|].
      apply elem_of_cons in Hy as [Hy|Hy]; [now symmetry|].
      rewrite Forall_forall in F1, F2.
      apply F2 in Hx. pose proof (F1 _ Hy) as Hxy.
      apply Hid; [left|now right|].
      unfold notAfter, byName in *. now apply bytes_lt_total. }
    f_equal. apply IH; try assumption.
    + intros a b Ha Hb. apply Hid; now right.
    + now apply Permutation_cons_inv in P.
Qed.

(** ** The loop over a tree *)

Lemma scanFrom_app (stop : ascii) (a b : bytes) (i : nat) :
  stop ∉ a -> scanFrom stop (a ++ stop :: b) i = Done (i + length a).
Proof.
  revert i. induction a as [|c a IH]; intros i H; simpl.
  - rewrite decide_True by reflexivity. f_equal. lia.
  - rewrite not_elem_of_cons in H. destruct H as [Hc Ha].
    rewrite decide_False by congruence. rewrite IH by assumption.
    f_equal. lia.
Qed.

Lemma scanFrom_missing (stop : ascii) (rest : bytes) (i : nat) :
  stop ∉ rest -> scanFrom stop rest i = Panic IndexRange.
Proof.
  revert i. induction rest as [|c rest IH]; intros i H; simpl; [reflexivity|].
  rewrite not_elem_of_cons in H. destruct H as [Hc Ha].
  rewrite decide_False by congruence. now apply IH.
Qed.

Lemma scanFrom_cases (stop : ascii) (rest : bytes) (i : nat) :
  scanFrom stop rest i = Panic IndexRange
  \/ exists j, scanFrom stop rest i = Done j /\ i <= j.
Proof.
  revert i. induction rest as [|c rest IH]; intros i; simpl; [now left|].
  destruct (decide (c = stop)); [right; eauto|].
  destruct (IH (S i)) as [H|(j & H & Hj)]; [now left|].
  right. exists j. split; [exact H|lia].
Qed.

Lemma scan_cases (stop : ascii) (s : slice) (i : nat) :
  scan stop s i = Panic IndexRange \/ exists j, scan stop s i = Done j /\ i <= j.
Proof. apply scanFrom_cases. Qed.

Lemma scan_at (stop : ascii) (s : slice) (pre a rest : bytes) (i : nat) :
  elems s = pre ++ a ++ stop :: rest -> (stop ∉ a) -> i = length pre ->
  scan stop s i = Done (i + length a).
Proof.
  intros E H ->. unfold scan. rewrite E, drop_app_length.
  now apply scanFrom_app.
Qed.

Lemma reslice_cases (s : slice) (i j : nat) :
  reslice s i j = Panic SliceBounds \/ exists a, reslice s i j = Done a.
Proof. unfold reslice. destruct (_ && _); eauto. Qed.

Lemma reslice_at (s : slice) (pre a rest : bytes) (i j : nat) :
  elems s = pre ++ a ++ rest -> i = length pre -> j = i + length a ->
  reslice s i j = Done a.
Proof.
  intros E -> ->. unfold reslice, cap. rewrite E, !length_app.
  destruct (Nat.leb_spec (length pre) (length pre + length a)); [|lia].
  destruct (Nat.leb_spec (length pre + length a)
              (length pre + (length a + length rest) + length (spare s)));
    [|lia].
  cbn [andb]. f_equal.
  rewrite <- !app_assoc, drop_app_length.
  replace (length pre + length a - length pre) with (length a) by lia.
  now rewrite take_app_length.
Qed.

(** One turn of the loop over bytes that hold a mode, a space, a name and
    a NUL byte: what is left is the slice expression for the identifier. *)
Lemma parseEntries_head (fuel : nat) (s : slice) (pre mode name rest : bytes)
    (acc : list entry) :
  elems s = pre ++ mode ++ SP :: name ++ NUL :: rest ->
  (SP ∉ mode) -> (NUL ∉ name) ->
  let i := length (pre ++ mode ++ SP :: name ++ [NUL]) in
  parseEntries (S fuel) s (length pre) acc
  = shaBytes ← reslice s i (i + 20);
    parseEntries fuel s (i + 20)
      (acc ++ [{| Mode := mode; Name := name; Sha := fmt_x shaBytes |}]).
Proof.
  intros E1 Hmode Hname i.
  set (pre2 := pre ++ mode ++ [SP]).
  assert (elems s = pre2 ++ name ++ NUL :: rest) as E2.
  { rewrite E1. unfold pre2. now rewrite <- !app_assoc. }
  assert (S (length pre + length mode) = length pre2) as L2.
  { unfold pre2. rewrite !length_app. simpl. lia. }
  assert (S (length pre2 + length name) = i) as L3.
  { unfold i, pre2. rewrite !length_app. simpl. rewrite !length_app. simpl. lia. }
  cbn [parseEntries].
  assert ((len s <=? length pre) = false) as ->.
  { apply Nat.leb_gt. unfold len. rewrite E1, !length_app. simpl. lia. }
  rewrite (scan_at SP s pre mode _ _ E1 Hmode eq_refl).
  cbn [mbind outcome_bind].
  rewrite (reslice_at s pre mode _ _ _ E1 eq_refl eq_refl).
  cbn [mbind outcome_bind].
  rewrite (scan_at NUL s pre2 name _ _ E2 Hname L2).
  cbn [mbind outcome_bind].
  rewrite (reslice_at s pre2 name _ _ _ E2 L2 eq_refl).
  cbn [mbind outcome_bind].
  rewrite L2, L3. reflexivity.
Qed.

Lemma parseEntries_step (fuel : nat) (pre rest sp : bytes) (e : entry)
    (acc : list entry) :
  wellFormed e ->
  parseEntries (S fuel) {| elems := pre ++ entryBytes e ++ rest; spare := sp |}
    (length pre) acc
  = parseEntries fuel {| elems := pre ++ entryBytes e ++ rest; spare := sp |}
      (length (pre ++ entryBytes e)) (acc ++ [listed e]).
Proof.
  intros (Hmode & Hname & Hsha).
  set (s := {| elems := pre ++ entryBytes e ++ rest; spare := sp |}).
  assert (elems s = pre ++ Mode e ++ SP :: Name e ++ NUL :: Sha e ++ rest)
    as E1.
  { unfold s, entryBytes. cbn [elems]. now rewrite <- !app_assoc. }
  rewrite (parseEntries_head fuel s pre (Mode e) (Name e) _ acc E1 Hmode Hname).
  cbv zeta.
  assert (elems s = (pre ++ Mode e ++ SP :: Name e ++ [NUL]) ++ Sha e ++ rest)
    as E3.
  { rewrite E1, <- !app_assoc. cbn [app]. now rewrite <- !app_assoc. }
  rewrite (reslice_at s _ (Sha e) _ _ _ E3 eq_refl (f_equal _ (eq_sym Hsha))).
  cbn [mbind outcome_bind].
  f_equal. unfold entryBytes. rewrite !length_app. simpl.
  rewrite !length_app. simpl. lia.
Qed.

Lemma parseEntries_treeBytes (es : list entry) :
  forall (fuel : nat) (pre sp : bytes) (acc : list entry),
  Forall wellFormed es -> length es <= fuel ->
  parseEntries fuel {| elems := pre ++ treeBytes es; spare := sp |}
    (length pre) acc
  = Done (acc ++ map listed es).
Proof.
  induction es as [|e es IH]; intros fuel pre sp acc Hwf Hfuel.
  - cbn [treeBytes flat_map map]. rewrite !app_nil_r.
    destruct fuel; cbn [parseEntries]; unfold len; cbn [elems];
      now rewrite Nat.leb_refl.
  - apply Forall_cons in Hwf as [He Hes].
    destruct fuel as [|fuel]; [simpl in Hfuel; lia|].
    change (treeBytes (e :: es)) with (entryBytes e ++ treeBytes es).
    rewrite parseEntries_step by assumption.
    rewrite app_assoc.
    rewrite IH by (simpl in Hfuel; auto with lia).
    cbn [map]. now rewrite <- app_assoc.
Qed.

Lemma length_entryBytes (e : entry) : 2 <= length (entryBytes e).
Proof. unfold entryBytes. rewrite !length_app. simpl. lia. Qed.

Lemma length_treeBytes (es : list entry) : length es <= length (treeBytes es).
Proof.
  induction es as [|e es IH]; simpl; [lia|].
  rewrite length_app. pose proof (length_entryBytes e). lia.
Qed.

(** The loop reads a stored tree back, entry by entry, in stored order. *)
Lemma parseTree_treeBytes (es : list entry) (sp : bytes) :
  Forall wellFormed es ->
  parseTree {| elems := treeBytes es; spare := sp |} = Done (map listed es).
Proof.
  intros H. unfold parseTree, len. cbn [elems].
  apply (parseEntries_treeBytes es _ [] sp []); [exact H|].
  apply length_treeBytes.
Qed.

(** The fuel [parseTree] gives the loop is enough. *)
Lemma parseEntries_fuel (fuel : nat) :
  forall (s : slice) (i : nat) (acc : list entry),
  len s <= fuel + i -> parseEntries fuel s i acc <> Diverge.
Proof.
  induction fuel as [|fuel IH]; intros s i acc H; cbn [parseEntries].
  - destruct (Nat.leb_spec (len s) i); [discriminate|lia].
  - destruct (Nat.leb_spec (len s) i); [discriminate|].
    destruct (scan_cases SP s i) as [->|(j & -> & Hj)]; [discriminate|].
    cbn [mbind outcome_bind].
    destruct (reslice_cases s i j) as [->|(mode & ->)]; [discriminate|].
    cbn [mbind outcome_bind].
    destruct (scan_cases NUL s (S j)) as [->|(k & -> & Hk)]; [discriminate|].
    cbn [mbind outcome_bind].
    destruct (reslice_cases s (S j) k) as [->|(name & ->)]; [discriminate|].
    cbn [mbind outcome_bind].
    destruct (reslice_cases s (S k) (S k + 20)) as [->|(sha & ->)];
      [discriminate|].
    cbn [mbind outcome_bind]. apply IH. lia.
Qed.

Lemma parseTree_total (s : slice) : parseTree s <> Diverge.
Proof. apply parseEntries_fuel. lia. Qed.

(** ** File system operations *)

Lemma os_Create_Some (fs : FS) (p : bytes) (q : list bytes) :
  os_Create fs p = Some q -> q = resolve p /\ q <> [].
Proof.
  unfold os_Create. destruct (resolve p) as [|c q'] eqn:E; [discriminate|].
  destruct (dirForm p); [discriminate|].
  destruct (fs !! (c :: q')) as [[d|]|]; try discriminate;
    destruct (is_dir fs _); try discriminate;
    intros [= <-]; split; congruence.
Qed.

Lemma os_Open_lookup (fs : FS) (p : bytes) :
  resolve p <> [] -> dirForm p = false -> os_Open fs p = fs !! resolve p.
Proof.
  intros H Hd. unfold os_Open. destruct p as [|c p]; [now contradict H|].
  rewrite Hd.
  destruct (resolve (c :: p)) as [|c' q]; [now contradict H|].
  destruct (fs !! (c' :: q)) as [[d|]|]; reflexivity.
Qed.

(** Through a path that asks for a directory only a directory is opened. *)
Lemma os_Open_dirForm (fs : FS) (p : bytes) :
  resolve p <> [] -> dirForm p = true ->
  os_Open fs p = match fs !! resolve p with
                 | Some Dir => Some Dir
                 | _ => None
                 end.
Proof.
  intros H Hd. unfold os_Open. destruct p as [|c p]; [now contradict H|].
  rewrite Hd.
  destruct (resolve (c :: p)) as [|c' q]; [now contradict H|].
  destruct (fs !! (c' :: q)) as [[d|]|]; reflexivity.
Qed.

Lemma os_Open_None (fs : FS) (p : bytes) :
  resolve p <> [] -> fs !! resolve p = None -> os_Open fs p = None.
Proof.
  intros H E. unfold os_Open. destruct p as [|c p]; [now contradict H|].
  destruct (resolve (c :: p)) as [|c' q]; [now contradict H|].
  now rewrite E.
Qed.

Lemma is_dir_lookup (fs : FS) (q : list bytes) :
  fs !! q = Some Dir -> is_dir fs q = true.
Proof. intros H. destruct q; simpl; [reflexivity|]. now rewrite H. Qed.

(** [os.MkdirAll] succeeds where no regular file stands on the way, makes
    the directory and touches nothing but the directories on the way. *)
Lemma MkdirAll_rev_ok (rq : list bytes) :
  forall fs : FS,
  (forall k d, fs !! rev (drop k rq) <> Some (File d)) ->
  exists fs',
    MkdirAll_rev fs rq = Some fs' /\ is_dir fs' (rev rq) = true /\
    (forall q, (forall k, q <> rev (drop k rq)) -> fs' !! q = fs !! q).
Proof.
  induction rq as [|c parent IH]; intros fs Hfree.
  - exists fs. repeat split.
  - cbn [MkdirAll_rev].
    destruct (fs !! rev (c :: parent)) as [[d|]|] eqn:E.
    + exfalso. exact (Hfree 0 d E).
    + exists fs. split; [reflexivity|]. split; [now apply is_dir_lookup|].
      reflexivity.
    + destruct (IH fs) as (fs1 & -> & Hd & Hsame).
      { intros k d. exact (Hfree (S k) d). }
      exists (<[rev (c :: parent) := Dir]> fs1). split; [reflexivity|].
      split; [apply is_dir_lookup, lookup_insert_eq|].
      intros q Hq. rewrite lookup_insert_ne by (symmetry; exact (Hq 0)).
      apply Hsame. intros k. exact (Hq (S k)).
Qed.

Lemma os_Stat_ReadFile (fs : FS) (p content : bytes) :
  os_ReadFile fs p = Some content -> os_Stat fs p = Some (length content).
Proof.
  unfold os_ReadFile, os_Stat.
  destruct (os_Open fs p) as [[data|]|]; try discriminate.
  now intros [= ->].
Qed.

(** ** Storing and reading back *)

Section Store.

Variable zlib_deflate : bytes -> bytes.
Variable zlib_inflate : bytes -> inflated.

(** What a [zlib.Writer] wrote, a [zlib.Reader] reads back. *)
Hypothesis inflate_deflate :
  forall data, zlib_inflate (zlib_deflate data) = Inflated data.

Lemma HashObject_unreadable (write : bool) (args : list bytes) (fs : FS) :
  os_ReadFile fs (hd [] args) = None ->
  HashObject zlib_deflate write args fs = (Exit1 "Could not open the file", fs).
Proof. intros H. unfold HashObject. now rewrite H. Qed.

Lemma HashObject_dry (args : list bytes) (fs : FS) (content : bytes) :
  os_ReadFile fs (hd [] args) = Some content ->
  HashObject zlib_deflate false args fs = (Done (blobId content), fs).
Proof.
  intros H. unfold HashObject. now rewrite H, (os_Stat_ReadFile _ _ _ H).
Qed.

(** A successful [hash-object -w] leaves the compressed envelope at the
    path of the identifier it prints. *)
Lemma HashObject_written (args : list bytes) (fs fs' : FS) (h : bytes) :
  HashObject zlib_deflate true args fs = (Done h, fs') ->
  exists content,
    os_ReadFile fs (hd [] args) = Some content /\ h = blobId content /\
    fs' !! resolve (blobPath h)
    = Some (File (zlib_deflate (headerAndContent (length content) content))).
Proof.
  unfold HashObject. intros H.
  destruct (os_ReadFile fs (hd [] args)) as [content|] eqn:R; [|discriminate].
  rewrite (os_Stat_ReadFile _ _ _ R) in H.
  exists content. split; [reflexivity|]. fold (blobId content) in H.
  destruct (os_MkdirAll fs _) as [fs1|]; [|discriminate].
  destruct (os_Create fs1 _) as [f|] eqn:C; [|discriminate].
  injection H as <- <-.
  apply os_Create_Some in C as [-> _].
  split; [reflexivity|]. unfold file_Write. apply lookup_insert_eq.
Qed.

(** [hash-object -w] succeeds on a readable file when no regular file
    stands where a directory of the object path is needed and no directory
    where the object file goes. *)
Lemma HashObject_succeeds (args : list bytes) (fs : FS) (content : bytes) :
  os_ReadFile fs (hd [] args) = Some content ->
  (forall k d,
     fs !! take k (removelast (resolve (blobPath (blobId content))))
     <> Some (File d)) ->
  fs !! resolve (blobPath (blobId content)) <> Some Dir ->
  exists fs',
    HashObject zlib_deflate true args fs = (Done (blobId content), fs').
Proof.
  intros R Hfree Hfile. unfold HashObject.
  rewrite R, (os_Stat_ReadFile _ _ _ R). fold (blobId content).
  set (q := resolve (blobPath (blobId content))) in *.
  assert (q <> []) as Hq.
  { unfold q. rewrite resolve_blobPath
      by (unfold blobId; rewrite length_hash; lia).
    apply resolve_objects_nonempty. }
  unfold os_MkdirAll, filepath_Dir. fold q.
  destruct (MkdirAll_rev_ok (rev (removelast q)) fs) as (fs1 & -> & Hd & Hsame).
  { intros k d. rewrite skipn_rev, rev_involutive. apply Hfree. }
  rewrite rev_involutive in Hd.
  assert (fs1 !! q = fs !! q) as Hsameq.
  { apply Hsame. intros k E. apply (f_equal length) in E.
    rewrite skipn_rev, rev_involutive, length_take in E.
    destruct q as [|c q'] using rev_ind; [congruence|].
    rewrite removelast_last, length_app in E. simpl in E. lia. }
  unfold os_Create. fold q. rewrite dirForm_blobId.
  destruct q as [|c q'] eqn:Eq; [congruence|].
  rewrite Hsameq, Hd.
  destruct (fs !! (c :: q')) as [[d|]|]; eauto. congruence.
Qed.

(** [cat-file] on a hexadecimal identifier of at least three characters
    whose object file holds a compressed envelope. *)
Lemma CatFile_object (prettyPrint : bool) (sha content : bytes) (fs : FS)
    (rest : list bytes) :
  Forall hexChar sha -> 3 <= length sha ->
  fs !! resolve (blobPath sha) = Some (File (zlib_deflate content)) ->
  CatFile zlib_inflate prettyPrint (sha :: rest) fs
  = match splitObject content with
    | None => Exit1 "Invalid Git object format (no null byte found)"
    | Some (header, body) => Done (if prettyPrint then body else header)
    end.
Proof.
  intros Hhex Hlen Hfile. unfold CatFile.
  rewrite objectPath_eq by lia. cbn [mbind outcome_bind].
  rewrite resolve_blobPath in Hfile by lia.
  rewrite os_Open_lookup, Hfile, inflate_deflate
    by (apply resolve_objects_nonempty || now apply dirForm_objectPath).
  reflexivity.
Qed.

(** C1 (as amended).  Storing a file with [hash-object -w] and reading the
    printed identifier back with [cat-file] gives, without [-p], the header
    [blob <length>] of the envelope and, with [-p], exactly the bytes that
    were stored. *)
Theorem put_get_roundtrip (args : list bytes) (fs fs' : FS) (h : bytes) :
  HashObject zlib_deflate true args fs = (Done h, fs') ->
  exists content,
    os_ReadFile fs (hd [] args) = Some content /\
    CatFile zlib_inflate true [h] fs' = Done content /\
    CatFile zlib_inflate false [h] fs'
    = Done (str "blob" ++ [SP] ++ fmt_d (length content)).
Proof.
  intros H. apply HashObject_written in H as (content & Hr & -> & Hf).
  exists content. split; [exact Hr|].
  assert (3 <= length (blobId content)) as Hlen.
  { unfold blobId. rewrite length_hash. lia. }
  assert (Forall hexChar (blobId content)) as Hhex by apply fmt_x_hexChar.
  split.
  - rewrite (CatFile_object true _ _ _ [] Hhex Hlen Hf).
    now rewrite splitObject_envelope.
  - rewrite (CatFile_object false _ _ _ [] Hhex Hlen Hf).
    now rewrite splitObject_envelope.
Qed.

(** C9.  Without [-w], [hash-object] leaves the file system as it found
    it; with [-w] it prints the same identifier, unless writing the object
    fails and the command exits.  The identifier is the digest of the
    envelope of the file's content in both modes. *)
Theorem dry_run_same_identifier (args : list bytes) (fs : FS) :
  snd (HashObject zlib_deflate false args fs) = fs /\
  (fst (HashObject zlib_deflate true args fs)
   = fst (HashObject zlib_deflate false args fs)
   \/ exists msg, fst (HashObject zlib_deflate true args fs) = Exit1 msg) /\
  (forall content, os_ReadFile fs (hd [] args) = Some content ->
     fst (HashObject zlib_deflate false args fs) = Done (blobId content)).
Proof.
  destruct (os_ReadFile fs (hd [] args)) as [content|] eqn:R.
  - rewrite (HashObject_dry _ _ _ R). cbn [fst snd].
    split; [reflexivity|]. split.
    + unfold HashObject. rewrite R, (os_Stat_ReadFile _ _ _ R).
      destruct (os_MkdirAll fs _) as [fs1|]; [|right; eauto].
      destruct (os_Create fs1 _) as [f|]; [|right; eauto].
      left. reflexivity.
    + intros c [= <-]. reflexivity.
  - rewrite !(HashObject_unreadable _ _ _ R). cbn [fst snd].
    split; [reflexivity|]. split; [now left|]. intros c [=].
Qed.

(** C10.  The envelope of the 11 bytes [hello world] is [blob 11], a NUL
    byte and the bytes themselves; its digest, which [hash-object] prints
    in either mode, is 95d09f2b10159347eece71399a7e2e907ea3df4f. *)
Theorem hello_world_identifier :
  headerAndContent 11 (str "hello world")
  = str "blob 11" ++ [NUL] ++ str "hello world" /\
  blobId (str "hello world") = str "95d09f2b10159347eece71399a7e2e907ea3df4f" /\
  fst (HashObject zlib_deflate false [str "test.txt"] helloFS)
  = Done (str "95d09f2b10159347eece71399a7e2e907ea3df4f") /\
  fst (HashObject zlib_deflate true [str "test.txt"] helloFS)
  = Done (str "95d09f2b10159347eece71399a7e2e907ea3df4f").
Proof.
  repeat split; vm_compute; reflexivity.
Qed.

End Store.

(** ** The envelope *)

Lemma Frame_declared_length (label payload : bytes) :
  NUL ∉ label ->
  splitObject (Frame label payload)
  = Some (label ++ SP :: fmt_d (length payload), payload) /\
  atoi (fmt_d (length payload)) = Some (length payload).
Proof.
  intros H. split; [|apply atoi_fmt_d].
  replace (Frame label payload)
    with ((label ++ SP :: fmt_d (length payload)) ++ NUL :: payload)
    by (unfold Frame; now rewrite <- !app_assoc).
  apply splitObject_app.
  rewrite not_elem_of_app. split; [exact H|].
  rewrite not_elem_of_cons. split; [discriminate|apply fmt_d_no_NUL].
Qed.

(** C2 (counterexample).  [hash-object] takes no type label: the stored
    form of a tree, put through it, is framed and stored under the label
    [blob], and the identifier printed is not the one of the envelope with
    the label [tree]. *)
Lemma put_frames_every_payload_as_blob :
  fst (HashObject stored_deflate true [str "tree.bin"] treeFileFS)
  = Done (blobId (treeBytes [entryB; entryA])) /\
  snd (HashObject stored_deflate true [str "tree.bin"] treeFileFS)
    !! resolve (blobPath (blobId (treeBytes [entryB; entryA])))
  = Some (File (str "blob 57" ++ [NUL] ++ treeBytes [entryB; entryA])) /\
  Frame (str "tree") (treeBytes [entryB; entryA])
  = str "tree 57" ++ [NUL] ++ treeBytes [entryB; entryA] /\
  blobId (treeBytes [entryB; entryA])
  <> fmt_x (SHA1.Sum (Frame (str "tree") (treeBytes [entryB; entryA]))).
Proof.
  repeat split; try (vm_compute; reflexivity).
  vm_compute. discriminate.
Qed.

(** C2 (as amended).  Whenever [hash-object] prints an identifier, it has
    read some content, the identifier is the digest of the envelope of that
    content under the label [blob] (the label, one space, the length in
    decimal, one NUL byte, the content), with [-w] the object file holds
    that envelope compressed and without [-w] nothing is written; and the
    length field of the envelope, read back as a number, is the number of
    bytes of the content. *)
Theorem put_frames_blob_envelope (zlib_deflate : bytes -> bytes)
    (write : bool) (args : list bytes) (fs fs' : FS) (h : bytes) :
  HashObject zlib_deflate write args fs = (Done h, fs') ->
  exists content,
    os_ReadFile fs (hd [] args) = Some content /\
    h = fmt_x (SHA1.Sum (Frame (str "blob") content)) /\
    (if write
     then fs' !! resolve (blobPath h)
          = Some (File (zlib_deflate (Frame (str "blob") content)))
     else fs' = fs) /\
    exists field,
      splitObject (Frame (str "blob") content)
      = Some (str "blob" ++ SP :: field, content) /\
      atoi field = Some (length content).
Proof.
  intros H.
  assert (exists content,
            os_ReadFile fs (hd [] args) = Some content /\ h = blobId content /\
            if write
            then fs' !! resolve (blobPath h)
                 = Some (File (zlib_deflate
                                 (headerAndContent (length content) content)))
            else fs' = fs) as (content & R & -> & Hfs).
  { destruct write.
    - apply HashObject_written in H as (content & R & -> & F). eauto.
    - destruct (os_ReadFile fs (hd [] args)) as [content|] eqn:R.
      + rewrite (HashObject_dry _ _ _ _ R) in H. injection H as <- <-. eauto.
      + rewrite (HashObject_unreadable _ _ _ _ R) in H. discriminate H. }
  exists content. split; [exact R|]. split; [reflexivity|].
  split; [exact Hfs|].
  exists (fmt_d (length content)). split; [|apply atoi_fmt_d].
  apply (splitObject_envelope content).
Qed.

(** C3.  For an identifier of hexadecimal characters, at least three of
    them, the path [cat-file] and [ls-tree] read and the path [hash-object]
    writes both resolve to the directory named by the first two characters
    and, inside it, the file named by the rest. *)
Theorem path_derivation (h : bytes) :
  Forall hexChar h -> 3 <= length h ->
  objectPath h
  = Done (str ".git/objects/" ++ take 2 h ++ [SLASH] ++ drop 2 h) /\
  blobPath h = str "./.git/objects/" ++ take 2 h ++ [SLASH] ++ drop 2 h /\
  resolve (str ".git/objects/" ++ take 2 h ++ [SLASH] ++ drop 2 h)
  = [str ".git"; str "objects"; take 2 h; drop 2 h] /\
  resolve (blobPath h) = [str ".git"; str "objects"; take 2 h; drop 2 h].
Proof.
  intros Hhex Hlen.
  split; [apply objectPath_eq; lia|].
  split; [apply blobPath_eq; lia|].
  split; [now apply resolve_objectPath|].
  rewrite resolve_blobPath by lia. now apply resolve_objectPath.
Qed.

Lemma path_derivation_witness :
  resolve (blobPath (str "95d09f2b10159347eece71399a7e2e907ea3df4f"))
  = [str ".git"; str "objects"; str "95";
     str "d09f2b10159347eece71399a7e2e907ea3df4f"].
Proof.
  refine (proj2 (proj2 (proj2
    (path_derivation (str "95d09f2b10159347eece71399a7e2e907ea3df4f") _ _)))).
  - apply (fmt_x_hexChar (SHA1.Sum (headerAndContent 11 (str "hello world")))).
  - simpl. lia.
Defined.

(** The identifiers [hash-object] prints are such identifiers. *)
Lemma blobId_valid (content : bytes) :
  Forall hexChar (blobId content) /\ length (blobId content) = 40.
Proof. split; [apply fmt_x_hexChar|apply length_hash]. Qed.

Lemma blobId_long (content : bytes) : 3 <= length (blobId content).
Proof. rewrite (proj2 (blobId_valid content)). lia. Qed.

(** ** Splitting an object *)

(** C8 (counterexample).  An object with a NUL byte whose header is no label
    followed by a length is split all the same, and [cat-file] prints its
    header. *)
Lemma unframe_accepts_any_header :
  ~ headerForm (str "x") /\
  splitObject (str "x" ++ [NUL] ++ str "y") = Some (str "x", str "y") /\
  CatFile stored_inflate false [str "abcd"] looseFS = Done (str "x") /\
  CatFile stored_inflate true [str "abcd"] looseFS = Done (str "y").
Proof.
  split; [|repeat split; vm_compute; reflexivity].
  intros (label & size & E).
  assert (SP ∈ str "x") as H.
  { rewrite E. apply elem_of_app. right. left. }
  apply elem_of_cons in H as [H|H]; [discriminate H|inversion H].
Qed.

(** C8 (as amended).  Splitting fails exactly when the object has no NUL
    byte; an object with one is split at the first, whatever stands before
    it, and the length the header declares is not compared with anything. *)
Theorem unframe_splits_at_first_NUL (content : bytes) :
  (splitObject content = None <-> NUL ∉ content) /\
  (forall header body,
     splitObject content = Some (header, body) <->
     content = header ++ NUL :: body /\ NUL ∉ header).
Proof.
  split; [apply splitObject_None|].
  intros header body. split; [apply splitObject_Some|].
  intros [-> H]. now apply splitObject_app.
Qed.

(** ** Trees that end too early *)

Lemma parseEntries_past_end (fuel : nat) (s : slice) (i : nat)
    (acc : list entry) :
  len s <= i -> parseEntries fuel s i acc = Done acc.
Proof.
  intros H. destruct fuel; cbn [parseEntries];
    destruct (Nat.leb_spec (len s) i); try lia; reflexivity.
Qed.

Lemma reslice_beyond_cap (s : slice) (i j : nat) :
  cap s < j -> reslice s i j = Panic SliceBounds.
Proof.
  intros H. unfold reslice.
  destruct (Nat.leb_spec j (cap s)); [lia|]. now rewrite andb_false_r.
Qed.

Lemma reslice_within (s : slice) (i j : nat) :
  i <= j -> j <= cap s ->
  reslice s i j = Done (take (j - i) (drop i (elems s ++ spare s))).
Proof.
  intros H1 H2. unfold reslice.
  destruct (Nat.leb_spec i j); [|lia].
  destruct (Nat.leb_spec j (cap s)); [reflexivity|lia].
Qed.

Lemma parseTree_no_space (s : slice) :
  elems s <> [] -> (SP ∉ elems s) -> parseTree s = Panic IndexRange.
Proof.
  intros Hne H. unfold parseTree, len.
  destruct (elems s) as [|c l] eqn:E; [congruence|].
  cbn [length parseEntries]. unfold len. rewrite E. cbn [length Nat.leb].
  unfold scan. rewrite E, drop_0, scanFrom_missing by assumption.
  reflexivity.
Qed.

Lemma parseTree_no_NUL (mode name sp : bytes) :
  (SP ∉ mode) -> (NUL ∉ name) ->
  parseTree {| elems := mode ++ SP :: name; spare := sp |} = Panic IndexRange.
Proof.
  intros Hmode Hname.
  set (s := {| elems := mode ++ SP :: name; spare := sp |}).
  assert (elems s = [] ++ mode ++ SP :: name) as E by reflexivity.
  unfold parseTree.
  assert (len s = S (length mode + length name)) as ->.
  { unfold len. rewrite E, !length_app. simpl. lia. }
  cbn [parseEntries].
  assert ((len s <=? 0) = false) as ->.
  { apply Nat.leb_gt. unfold len. rewrite E, !length_app. simpl. lia. }
  rewrite (scan_at SP s [] mode _ 0 E Hmode eq_refl).
  cbn [mbind outcome_bind].
  rewrite (reslice_at s [] mode _ 0 _ E eq_refl eq_refl).
  cbn [mbind outcome_bind].
  unfold scan.
  replace (drop (S (0 + length mode)) (elems s)) with name.
  - rewrite scanFrom_missing by assumption. reflexivity.
  - rewrite E. cbn [app]. rewrite (cons_middle SP), app_assoc.
    replace (S (0 + length mode)) with (length (mode ++ [SP]))
      by (rewrite length_app; simpl; lia).
    now rewrite drop_app_length.
Qed.

Lemma parseTree_short_id (mode name id : bytes) :
  (SP ∉ mode) -> (NUL ∉ name) -> length id < 20 ->
  parseTree {| elems := mode ++ SP :: name ++ NUL :: id; spare := [] |}
  = Panic SliceBounds.
Proof.
  intros Hmode Hname Hid.
  set (s := {| elems := mode ++ SP :: name ++ NUL :: id; spare := [] |}).
  assert (elems s = [] ++ mode ++ SP :: name ++ NUL :: id) as E by reflexivity.
  unfold parseTree.
  assert (len s = S (length mode + length name + length id + 1)) as ->.
  { unfold len. rewrite E, !length_app. simpl. rewrite length_app. simpl. lia. }
  etransitivity;
    [exact (parseEntries_head _ s [] mode name id [] E Hmode Hname)|].
  cbv zeta. rewrite reslice_beyond_cap; [reflexivity|].
  unfold cap, s. cbn [elems spare app].
  rewrite !length_app. cbn [length]. rewrite !length_app. cbn [length]. lia.
Qed.

(** With room left in the buffer the slice expression succeeds and the
    identifier is completed with whatever bytes follow the tree. *)
Lemma parseTree_short_id_spare (mode name id sp : bytes) :
  (SP ∉ mode) -> (NUL ∉ name) -> length id < 20 -> 20 <= length id + length sp ->
  parseTree {| elems := mode ++ SP :: name ++ NUL :: id; spare := sp |}
  = Done [{| Mode := mode; Name := name; Sha := fmt_x (take 20 (id ++ sp)) |}].
Proof.
  intros Hmode Hname Hid Hsp.
  set (s := {| elems := mode ++ SP :: name ++ NUL :: id; spare := sp |}).
  assert (elems s = [] ++ mode ++ SP :: name ++ NUL :: id) as E by reflexivity.
  unfold parseTree.
  assert (len s = S (length mode + length name + length id + 1)) as L.
  { unfold len. rewrite E, !length_app. simpl. rewrite length_app. simpl. lia. }
  rewrite L.
  etransitivity;
    [exact (parseEntries_head _ s [] mode name id [] E Hmode Hname)|].
  cbv zeta.
  set (i := length ([] ++ mode ++ SP :: name ++ [NUL])).
  assert (i = length mode + length name + 2) as Hi.
  { unfold i. rewrite !length_app. simpl. rewrite length_app. simpl. lia. }
  assert (reslice s i (i + 20) = Done (take 20 (id ++ sp))) as ->.
  { rewrite reslice_within;
      [|lia|unfold cap; fold (len s); rewrite L; unfold s; cbn [spare]; lia].
    f_equal. replace (i + 20 - i) with 20 by lia. f_equal.
    replace (elems s ++ spare s)
      with (([] ++ mode ++ SP :: name ++ [NUL]) ++ id ++ sp).
    - apply drop_app_length.
    - unfold s. cbn [elems spare app]. rewrite <- !app_assoc. cbn [app].
      now rewrite <- !app_assoc. }
  cbn [mbind outcome_bind].
  apply parseEntries_past_end. lia.
Qed.

(** C5 (the code at the failing inputs).  A tree that stops before the NUL
    byte of a name, one without any space, and one with fewer than twenty
    bytes left for the identifier and no room behind them all end in a
    run-time panic, not in a reported error. *)
Theorem truncated_tree_panics (mode name id sp : bytes) :
  mode <> [] -> (SP ∉ mode) -> (NUL ∉ name) -> length id < 20 ->
  parseTree {| elems := mode ++ SP :: name; spare := sp |} = Panic IndexRange /\
  parseTree {| elems := mode; spare := sp |} = Panic IndexRange /\
  parseTree {| elems := mode ++ SP :: name ++ NUL :: id; spare := [] |}
  = Panic SliceBounds.
Proof.
  intros Hne Hmode Hname Hid.
  split; [now apply parseTree_no_NUL|].
  split; [now apply parseTree_no_space|now apply parseTree_short_id].
Qed.

(** [ls-tree] on an object whose tree stops after a name. *)
Example LsTree_truncated :
  LsTree stored_inflate insertionSort true [str "abcd"] []
    {[ [str ".git"; str "objects"; str "ab"; str "cd"]
       := File (str "tree 8" ++ [NUL] ++ str "100644 a") ]}
  = Panic IndexRange.
Proof. vm_compute. reflexivity. Qed.

(** ** Listing a tree *)

Section Listing.

Variable zlib_inflate : bytes -> inflated.
Variable sort_Slice : (entry -> entry -> bool) -> list entry -> list entry.

(** What [sort.Slice] promises: the same elements, none before an element
    that [less] puts first. *)
Hypothesis sort_Slice_Permutation :
  forall l, Permutation (sort_Slice byName l) l.
Hypothesis sort_Slice_sorted :
  forall l, StronglySorted notAfter (sort_Slice byName l).

Lemma namesIdentify_Permutation (l1 l2 : list entry) :
  Permutation l1 l2 -> namesIdentify l1 -> namesIdentify l2.
Proof.
  intros P H a b Ha Hb. rewrite <- P in Ha, Hb. now apply H.
Qed.

(** Where names tell entries apart every sorting algorithm agrees. *)
Lemma sort_Slice_unique (l : list entry) :
  namesIdentify l -> sort_Slice byName l = insertionSort byName l.
Proof.
  intros H. apply sorted_Permutation_eq.
  - eapply namesIdentify_Permutation; [|exact H].
    symmetry. apply sort_Slice_Permutation.
  - apply sort_Slice_sorted.
  - apply insertionSort_sorted.
  - rewrite sort_Slice_Permutation. symmetry. apply insertionSort_Permutation.
Qed.

(** C4 (the code at the failing inputs).  An identifier of fewer than two
    characters makes [cat-file] and [ls-tree] panic in the slice expression
    that derives the path. *)
Theorem short_identifier_panics (sha : bytes) (prettyPrint nameOnly : bool)
    (readAll : bytes) (fs : FS) :
  length sha < 2 ->
  CatFile zlib_inflate prettyPrint [sha] fs = Panic SliceBounds /\
  LsTree zlib_inflate sort_Slice nameOnly [sha] readAll fs = Panic SliceBounds /\
  LsTree zlib_inflate sort_Slice nameOnly [] readAll fs = Panic SliceBounds.
Proof.
  intros H. unfold CatFile, LsTree. cbn [hd].
  rewrite (objectPath_short sha H). repeat split; reflexivity.
Qed.

(** [ls-tree] on a hexadecimal identifier of at least three characters
    whose object file decompresses to a header, a NUL byte and a stored
    tree. *)
Lemma LsTree_object (nameOnly : bool) (sha data header : bytes)
    (es : list entry) (readAll : bytes) (fs : FS) (rest : list bytes) :
  Forall hexChar sha -> 3 <= length sha ->
  fs !! resolve (blobPath sha) = Some (File data) ->
  zlib_inflate data = Inflated (header ++ NUL :: treeBytes es) ->
  (NUL ∉ header) -> Forall wellFormed es ->
  LsTree zlib_inflate sort_Slice nameOnly (sha :: rest) readAll fs
  = Done (printEntries nameOnly (sort_Slice byName (map listed es))).
Proof.
  intros Hhex Hlen Hfile Hz Hh Hwf. unfold LsTree. cbn [hd].
  rewrite objectPath_eq by lia. cbn [mbind outcome_bind].
  rewrite resolve_blobPath in Hfile by lia.
  rewrite os_Open_lookup, Hfile, Hz
    by (apply resolve_objects_nonempty || now apply dirForm_objectPath).
  rewrite nullIndex_app by assumption.
  unfold slice_from, listEntries. cbn [elems spare].
  replace (drop (length header + 1) (header ++ NUL :: treeBytes es))
    with (treeBytes es).
  - rewrite parseTree_treeBytes by assumption. reflexivity.
  - rewrite (cons_middle NUL), app_assoc.
    replace (length header + 1) with (length (header ++ [NUL]))
      by (rewrite length_app; reflexivity).
    now rewrite drop_app_length.
Qed.

(** C6.  The loop of [ls-tree] decodes a well-formed stored tree into its
    entries in the order the bytes hold them, whatever that order is and
    whatever is left in the buffer behind them; no sorting takes place in
    the loop.  The sorting is the step [ls-tree] takes afterwards, on the
    list the loop returned. *)
Theorem decode_in_stored_order (es : list entry) (sp : bytes) :
  Forall wellFormed es ->
  parseTree {| elems := treeBytes es; spare := sp |} = Done (map listed es) /\
  listEntries sort_Slice {| elems := treeBytes es; spare := sp |}
  = Done (sort_Slice byName (map listed es)).
Proof.
  intros H. unfold listEntries.
  rewrite (parseTree_treeBytes es sp H). split; reflexivity.
Qed.

(** Whatever the sorting algorithm, entry [a] is listed before entry [b]. *)
Lemma listing_sorts_b_a (sp : bytes) :
  listEntries sort_Slice {| elems := treeBytes [entryB; entryA]; spare := sp |}
  = Done [listed entryA; listed entryB].
Proof.
  assert (Forall wellFormed [entryB; entryA]) as Hwf.
  { repeat constructor; try (intros H;
      repeat (apply elem_of_cons in H as [H|H]; [discriminate H|]);
      inversion H). }
  unfold listEntries. rewrite (parseTree_treeBytes _ sp Hwf).
  cbn [mbind outcome_bind]. rewrite sort_Slice_unique; [reflexivity|].
  intros a b Ha Hb.
  repeat (apply elem_of_cons in Ha as [->|Ha]);
    repeat (apply elem_of_cons in Hb as [->|Hb]);
    try (now inversion Ha); try (now inversion Hb);
    try reflexivity; discriminate.
Qed.

End Listing.

(** A stored tree with [b] before [a] is decoded in that order, and
    [ls-tree], which sorts what the loop returned, prints [a] first. *)
Example LsTree_sorts_b_a :
  parseTree {| elems := treeBytes [entryB; entryA]; spare := [] |}
  = Done [listed entryB; listed entryA] /\
  listEntries insertionSort {| elems := treeBytes [entryB; entryA]; spare := [] |}
  = Done [listed entryA; listed entryB] /\
  LsTree stored_inflate insertionSort true [str "abcd"] [] treeFS
  = Done (str "a" ++ [LF] ++ str "b" ++ [LF]).
Proof. repeat split; vm_compute; reflexivity. Qed.

(** ** Encoding *)

(** C7.  [Encode] concatenates the entries in ascending order of name:
    its output is the stored form of a sorted rearrangement of the list,
    two lists with the same entries give the same bytes wherever names tell
    the entries apart, and of two entries named [b] and [a], given in that
    order, the one named [a] comes first. *)
Theorem Encode_sorts_by_name :
  (forall l, exists sorted,
     Permutation sorted l /\ StronglySorted notAfter sorted /\
     Encode l = treeBytes sorted) /\
  (forall l1 l2,
     Permutation l1 l2 -> namesIdentify l1 -> Encode l1 = Encode l2) /\
  (forall a b,
     Name a = str "a" -> Name b = str "b" ->
     Encode [b; a] = entryBytes a ++ entryBytes b).
Proof.
  split; [|split].
  - intros l. exists (insertionSort byName l).
    split; [apply insertionSort_Permutation|].
    split; [apply insertionSort_sorted|reflexivity].
  - intros l1 l2 P Hid. unfold Encode. f_equal.
    apply sorted_Permutation_eq.
    + intros a b Ha Hb. rewrite insertionSort_Permutation in Ha, Hb.
      now apply Hid.
    + apply insertionSort_sorted.
    + apply insertionSort_sorted.
    + rewrite !insertionSort_Permutation. exact P.
  - intros a b Ha Hb. unfold Encode. cbn [insertionSort insertBy].
    unfold byName at 1. rewrite Ha, Hb. cbn [insertBy treeBytes flat_map].
    change (bytes_lt (str "a") (str "b")) with true. cbn [insertBy].
    unfold treeBytes. cbn [flat_map]. now rewrite app_nil_r.
Qed.

(** * The theorems at concrete inputs *)

(** C1 (counterexample).  Reading the stored [hello world] back without
    [-p] gives the header [blob 11], not the label [blob]. *)
Lemma get_prints_header_with_length :
  fst (HashObject stored_deflate true [str "test.txt"] helloFS) = Done helloId /\
  CatFile stored_inflate false [helloId]
    (snd (HashObject stored_deflate true [str "test.txt"] helloFS))
  = Done (str "blob 11") /\
  CatFile stored_inflate true [helloId]
    (snd (HashObject stored_deflate true [str "test.txt"] helloFS))
  = Done (str "hello world") /\
  str "blob 11" <> str "blob".
Proof. repeat split; try (vm_compute; reflexivity). discriminate. Qed.

Lemma put_get_roundtrip_witness :
  exists content,
    os_ReadFile helloFS (hd [] [str "test.txt"]) = Some content /\
    CatFile stored_inflate true [helloId]
      (snd (HashObject stored_deflate true [str "test.txt"] helloFS))
    = Done content /\
    CatFile stored_inflate false [helloId]
      (snd (HashObject stored_deflate true [str "test.txt"] helloFS))
    = Done (str "blob" ++ [SP] ++ fmt_d (length content)).
Proof.
  apply (put_get_roundtrip stored_deflate stored_inflate
           (fun data => eq_refl) [str "test.txt"] helloFS).
  apply injective_projections; [vm_compute|]; reflexivity.
Defined.

Lemma short_identifier_panics_witness :
  CatFile stored_inflate true [str "a"] helloFS = Panic SliceBounds /\
  LsTree stored_inflate insertionSort true [str "a"] [] helloFS
  = Panic SliceBounds /\
  LsTree stored_inflate insertionSort true [] [] helloFS = Panic SliceBounds.
Proof.
  apply (short_identifier_panics stored_inflate insertionSort (str "a")).
  simpl. lia.
Defined.

Lemma truncated_tree_panics_witness :
  parseTree {| elems := str "100644" ++ SP :: str "a"; spare := [] |}
  = Panic IndexRange /\
  parseTree {| elems := str "100644"; spare := [] |} = Panic IndexRange /\
  parseTree {| elems := str "100644" ++ SP :: str "a" ++ NUL :: str "AAAA";
               spare := [] |}
  = Panic SliceBounds.
Proof.
  apply (truncated_tree_panics (str "100644") (str "a") (str "AAAA") []).
  - discriminate.
  - compute_done.
  - compute_done.
  - simpl. lia.
Defined.

Lemma wellFormed_entries_b_a : Forall wellFormed [entryB; entryA].
Proof.
  repeat constructor; compute_done.
Defined.

Lemma decode_in_stored_order_witness :
  parseTree {| elems := treeBytes [entryB; entryA]; spare := [] |}
  = Done (map listed [entryB; entryA]) /\
  listEntries insertionSort {| elems := treeBytes [entryB; entryA]; spare := [] |}
  = Done (insertionSort byName (map listed [entryB; entryA])).
Proof.
  apply (decode_in_stored_order insertionSort [entryB; entryA] []).
  exact wellFormed_entries_b_a.
Defined.

Lemma put_frames_blob_envelope_witness :
  exists content,
    os_ReadFile helloFS (hd [] [str "test.txt"]) = Some content /\
    helloId = fmt_x (SHA1.Sum (Frame (str "blob") content)) /\
    snd (HashObject stored_deflate true [str "test.txt"] helloFS)
      !! resolve (blobPath helloId)
    = Some (File (stored_deflate (Frame (str "blob") content))) /\
    exists field,
      splitObject (Frame (str "blob") content)
      = Some (str "blob" ++ SP :: field, content) /\
      atoi field = Some (length content).
Proof.
  apply (put_frames_blob_envelope stored_deflate true [str "test.txt"] helloFS).
  apply injective_projections; [vm_compute|]; reflexivity.
Defined.

Lemma Encode_sorts_by_name_witness :
  Encode [entryB; entryA] = Encode [entryA; entryB].
Proof.
  apply (proj1 (proj2 Encode_sorts_by_name)); [apply perm_swap|].
  intros a b Ha Hb.
  repeat (apply elem_of_cons in Ha as [->|Ha]);
    repeat (apply elem_of_cons in Hb as [->|Hb]);
    try (now inversion Ha); try (now inversion Hb);
    try reflexivity; discriminate.
Defined.

(** * More of the commands *)

(** ** Making directories *)

Lemma MkdirAll_rev_Some (rq : list bytes) :
  forall fs fs' : FS,
  MkdirAll_rev fs rq = Some fs' ->
  (rq <> [] -> fs' !! rev rq = Some Dir) /\
  (forall p n, fs !! p = Some n -> fs' !! p = Some n) /\
  (forall p, (forall k, k < length rq -> p <> rev (drop k rq)) ->
             fs' !! p = fs !! p).
Proof.
  induction rq as [|c parent IH]; intros fs fs' H.
  - injection H as <-. repeat split; auto. congruence.
  - cbn [MkdirAll_rev] in H.
    destruct (fs !! rev (c :: parent)) as [[d|]|] eqn:E.
    + discriminate.
    + injection H as <-. repeat split; auto.
    + destruct (MkdirAll_rev fs parent) as [fs1|] eqn:M; [|discriminate].
      injection H as <-. destruct (IH _ _ M) as (_ & Hkeep & Hframe).
      split; [intros _; apply lookup_insert_eq|]. split.
      * intros p n Hp.
        assert (rev (c :: parent) <> p) as Hne.
        { intros Heq. subst p.
          assert (Some n = None) as C by (rewrite <- Hp; exact E).
          discriminate C. }
        rewrite lookup_insert_ne by exact Hne.
        now apply Hkeep.
      * intros p Hp.
        rewrite lookup_insert_ne
          by (symmetry; apply (Hp 0); simpl; lia).
        apply Hframe. intros k Hk. apply (Hp (S k)). simpl. lia.
Qed.

Lemma os_MkdirAll_Dir (fs fs' : FS) (q : list bytes) :
  os_MkdirAll fs q = Some fs' -> q <> [] -> fs' !! q = Some Dir.
Proof.
  intros H Hq. apply MkdirAll_rev_Some in H as (H & _).
  rewrite rev_involutive in H. apply H.
  intros E. apply (f_equal (@rev _)) in E. rewrite rev_involutive in E.
  now apply Hq.
Qed.

Lemma os_MkdirAll_keeps (fs fs' : FS) (q p : list bytes) (n : node) :
  os_MkdirAll fs q = Some fs' -> fs !! p = Some n -> fs' !! p = Some n.
Proof. intros H. apply MkdirAll_rev_Some in H as (_ & H & _). apply H. Qed.

Lemma os_MkdirAll_frame (fs fs' : FS) (q p : list bytes) :
  os_MkdirAll fs q = Some fs' ->
  (forall m, 0 < m -> p <> take m q) -> fs' !! p = fs !! p.
Proof.
  intros H Hp. apply MkdirAll_rev_Some in H as (_ & _ & H). apply H.
  intros k Hk. rewrite length_rev in Hk.
  rewrite skipn_rev, rev_involutive. apply Hp. lia.
Qed.

Lemma os_MkdirAll_exists (fs : FS) (q : list bytes) :
  q <> [] -> fs !! q = Some Dir -> os_MkdirAll fs q = Some fs.
Proof.
  intros Hq H. unfold os_MkdirAll.
  destruct (rev q) as [|c parent] eqn:E.
  - apply (f_equal (@rev _)) in E. rewrite rev_involutive in E. now contradict Hq.
  - cbn [MkdirAll_rev]. now rewrite <- E, rev_involutive, H.
Qed.

Lemma MkdirAll_rev_free (rq : list bytes) :
  forall fs : FS,
  (forall k d, k < length rq -> fs !! rev (drop k rq) <> Some (File d)) ->
  is_Some (MkdirAll_rev fs rq).
Proof.
  induction rq as [|c parent IH]; intros fs Hfree; [eexists; reflexivity|].
  cbn [MkdirAll_rev].
  destruct (fs !! rev (c :: parent)) as [[d|]|] eqn:E.
  - exfalso. apply (Hfree 0 d); [simpl; lia|exact E].
  - eexists; reflexivity.
  - destruct (IH fs) as [fs1 ->]; [|eexists; reflexivity].
    intros k d Hk. apply (Hfree (S k) d). simpl. lia.
Qed.

Lemma os_MkdirAll_free (fs : FS) (q : list bytes) :
  (forall m d, 0 < m -> fs !! take m q <> Some (File d)) ->
  is_Some (os_MkdirAll fs q).
Proof.
  intros H. apply MkdirAll_rev_free. intros k d Hk.
  rewrite length_rev in Hk. rewrite skipn_rev, rev_involutive.
  apply H. lia.
Qed.

(** ** [init] *)

Lemma resolve_init_paths :
  resolve (str ".git") = gitDir /\ resolve (str ".git/objects") = objectsDir /\
  resolve (str ".git/refs") = refsDir /\ resolve (str ".git/HEAD") = headFile.
Proof. repeat split; reflexivity. Qed.

Lemma init_paths_differ :
  gitDir <> objectsDir /\ gitDir <> refsDir /\ gitDir <> headFile /\
  objectsDir <> refsDir /\ objectsDir <> headFile /\ refsDir <> headFile.
Proof. repeat split; discriminate. Qed.

Lemma MkdirAll_gitDir (fs : FS) :
  os_MkdirAll fs gitDir
  = match fs !! gitDir with
    | Some Dir => Some fs
    | Some (File _) => None
    | None => Some (<[gitDir := Dir]> fs)
    end.
Proof.
  unfold os_MkdirAll, gitDir. cbn [rev app MkdirAll_rev].
  destruct (fs !! [str ".git"]) as [[d|]|]; reflexivity.
Qed.

Lemma MkdirAll_below_gitDir (fs : FS) (c : bytes) :
  os_MkdirAll fs [str ".git"; c]
  = match fs !! [str ".git"; c] with
    | Some Dir => Some fs
    | Some (File _) => None
    | None =>
        match fs !! gitDir with
        | Some Dir => Some (<[[str ".git"; c] := Dir]> fs)
        | Some (File _) => None
        | None => Some (<[[str ".git"; c] := Dir]> (<[gitDir := Dir]> fs))
        end
    end.
Proof.
  unfold os_MkdirAll, gitDir. cbn [rev app MkdirAll_rev].
  destruct (fs !! [str ".git"; c]) as [[d|]|]; try reflexivity.
  destruct (fs !! [str ".git"]) as [[d|]|]; reflexivity.
Qed.

Lemma WriteFile_HEAD (fs : FS) (data : bytes) :
  os_WriteFile fs (str ".git/HEAD") data
  = match fs !! headFile with
    | Some Dir => None
    | _ => match fs !! gitDir with
           | Some Dir => Some (<[headFile := File data]> fs)
           | _ => None
           end
    end.
Proof.
  unfold os_WriteFile, os_Create.
  rewrite (proj2 (proj2 (proj2 resolve_init_paths))).
  unfold headFile at 1. unfold is_dir, file_Write.
  change (removelast headFile) with gitDir. unfold gitDir at 1 2.
  fold gitDir.
  destruct (fs !! headFile) as [[d|]|];
    destruct (fs !! gitDir) as [[d'|]|]; reflexivity.
Qed.

(** [InitRepository] spelled out. *)
Lemma InitRepository_steps (fs : FS) :
  InitRepository fs
  = let st := makeDir ([], fs) (str ".git") in
    let st := makeDir st (str ".git/objects") in
    let st := makeDir st (str ".git/refs") in
    let st :=
      match os_WriteFile st.2 (str ".git/HEAD") headContents with
      | None => (st.1 ++ ["Error writing file"], st.2)
      | Some fs => (st.1, fs)
      end in
    (str "Initialized git directory" ++ [LF], st.1, st.2).
Proof. reflexivity. Qed.

Lemma take_single (a : bytes) (m : nat) : 0 < m -> take m [a] = [a].
Proof. intros H. destruct m; [lia|]. simpl. now rewrite take_nil. Qed.

Lemma take_pair (a b : bytes) (m : nat) :
  0 < m -> take m [a; b] = [a] \/ take m [a; b] = [a; b].
Proof.
  intros H. destruct m as [|[|m]]; [lia|now left|right].
  simpl. now rewrite take_nil.
Qed.

Lemma init_all_succeed (fs fs1 fs2 fs3 fs4 : FS) :
  os_MkdirAll fs gitDir = Some fs1 ->
  os_MkdirAll fs1 objectsDir = Some fs2 ->
  os_MkdirAll fs2 refsDir = Some fs3 ->
  os_WriteFile fs3 (str ".git/HEAD") headContents = Some fs4 ->
  InitRepository fs = (str "Initialized git directory" ++ [LF], [], fs4) /\
  fs4 !! gitDir = Some Dir /\ fs4 !! objectsDir = Some Dir /\
  fs4 !! refsDir = Some Dir /\ fs4 !! headFile = Some (File headContents).
Proof.
  intros H1 H2 H3 H4.
  destruct init_paths_differ as (Hgo & Hgr & Hgh & Hor & Hoh & Hrh).
  destruct resolve_init_paths as (Rg & Ro & Rr & Rh).
  split.
  - rewrite InitRepository_steps. unfold makeDir. cbn [fst snd].
    rewrite Rg, H1. cbn [fst snd]. rewrite Ro, H2. cbn [fst snd].
    rewrite Rr, H3. cbn [fst snd]. now rewrite H4.
  - assert (fs3 !! gitDir = Some Dir) as G3.
    { eapply os_MkdirAll_keeps; [exact H3|].
      eapply os_MkdirAll_keeps; [exact H2|].
      eapply os_MkdirAll_Dir; [exact H1|discriminate]. }
    assert (fs3 !! objectsDir = Some Dir) as O3.
    { eapply os_MkdirAll_keeps; [exact H3|].
      eapply os_MkdirAll_Dir; [exact H2|discriminate]. }
    assert (fs3 !! refsDir = Some Dir) as R3.
    { eapply os_MkdirAll_Dir; [exact H3|discriminate]. }
    rewrite WriteFile_HEAD, G3 in H4.
    assert (fs4 = <[headFile := File headContents]> fs3) as ->.
    { destruct (fs3 !! headFile) as [[d|]|]; congruence. }
    rewrite lookup_insert_eq, !lookup_insert_ne by congruence.
    repeat split; assumption.
Qed.

Lemma init_no_error (fs : FS) :
  (InitRepository fs).1.2 = [] ->
  exists fs1 fs2 fs3 fs4,
    os_MkdirAll fs gitDir = Some fs1 /\
    os_MkdirAll fs1 objectsDir = Some fs2 /\
    os_MkdirAll fs2 refsDir = Some fs3 /\
    os_WriteFile fs3 (str ".git/HEAD") headContents = Some fs4.
Proof.
  destruct resolve_init_paths as (Rg & Ro & Rr & Rh).
  rewrite InitRepository_steps. unfold makeDir. cbn [fst snd].
  rewrite Rg, Ro, Rr.
  destruct (os_MkdirAll fs gitDir) as [fs1|] eqn:H1; cbn [fst snd].
  - destruct (os_MkdirAll fs1 objectsDir) as [fs2|] eqn:H2; cbn [fst snd].
    + destruct (os_MkdirAll fs2 refsDir) as [fs3|] eqn:H3; cbn [fst snd].
      * destruct (os_WriteFile fs3 _ _) as [fs4|] eqn:H4; cbn [fst snd].
        -- intros _. exists fs1, fs2, fs3, fs4. auto.
        -- discriminate.
      * destruct (os_WriteFile fs2 _ _); discriminate.
    + destruct (os_MkdirAll fs1 refsDir); cbn [fst snd];
        destruct (os_WriteFile _ _ _); discriminate.
  - destruct (os_MkdirAll fs objectsDir); cbn [fst snd];
      destruct (os_MkdirAll _ refsDir); cbn [fst snd];
      destruct (os_WriteFile _ _ _); discriminate.
Qed.

Lemma init_on_repository (fs : FS) :
  fs !! gitDir = Some Dir -> fs !! objectsDir = Some Dir ->
  fs !! refsDir = Some Dir -> fs !! headFile = Some (File headContents) ->
  InitRepository fs = (str "Initialized git directory" ++ [LF], [], fs).
Proof.
  intros G O R H.
  apply (init_all_succeed fs fs fs fs fs).
  - apply os_MkdirAll_exists; [discriminate|exact G].
  - apply os_MkdirAll_exists; [discriminate|exact O].
  - apply os_MkdirAll_exists; [discriminate|exact R].
  - rewrite WriteFile_HEAD, H, G. f_equal. now apply insert_id.
Qed.

Lemma InitRepository_succeeds (fs : FS) :
  (forall d, fs !! gitDir <> Some (File d)) ->
  (forall d, fs !! objectsDir <> Some (File d)) ->
  (forall d, fs !! refsDir <> Some (File d)) ->
  fs !! headFile <> Some Dir ->
  (InitRepository fs).1.2 = [] /\
  (InitRepository fs).2 !! gitDir = Some Dir /\
  (InitRepository fs).2 !! objectsDir = Some Dir /\
  (InitRepository fs).2 !! refsDir = Some Dir /\
  (InitRepository fs).2 !! headFile = Some (File headContents).
Proof.
  intros Hg Ho Hr Hh.
  destruct init_paths_differ as (Hgo & Hgr & Hgh & Hor & Hoh & Hrh).
  destruct (os_MkdirAll_free fs gitDir) as [fs1 H1].
  { intros m d Hm. unfold gitDir. rewrite take_single by assumption. apply Hg. }
  assert (fs1 !! gitDir = Some Dir) as G1
    by (eapply os_MkdirAll_Dir; [exact H1|discriminate]).
  assert (forall p, p <> gitDir -> fs1 !! p = fs !! p) as F1.
  { intros p Hp. eapply os_MkdirAll_frame; [exact H1|].
    intros m Hm. unfold gitDir. now rewrite take_single by assumption. }
  destruct (os_MkdirAll_free fs1 objectsDir) as [fs2 H2].
  { intros m d Hm. destruct (take_pair (str ".git") (str "objects") m Hm)
      as [E|E]; unfold objectsDir; rewrite E.
    - fold gitDir. rewrite G1. discriminate.
    - fold objectsDir. rewrite F1 by congruence. apply Ho. }
  assert (forall p, p <> gitDir -> p <> objectsDir -> fs2 !! p = fs !! p)
    as F2.
  { intros p Hp Hp'. rewrite <- F1 by assumption.
    eapply os_MkdirAll_frame; [exact H2|].
    intros m Hm. destruct (take_pair (str ".git") (str "objects") m Hm)
      as [E|E]; unfold objectsDir; rewrite E; assumption. }
  assert (fs2 !! gitDir = Some Dir) as G2
    by (eapply os_MkdirAll_keeps; eassumption).
  destruct (os_MkdirAll_free fs2 refsDir) as [fs3 H3].
  { intros m d Hm. destruct (take_pair (str ".git") (str "refs") m Hm)
      as [E|E]; unfold refsDir; rewrite E.
    - fold gitDir. rewrite G2. discriminate.
    - fold refsDir. rewrite F2 by congruence. apply Hr. }
  assert (fs3 !! headFile = fs !! headFile) as F3.
  { rewrite <- F2 by congruence.
    eapply os_MkdirAll_frame; [exact H3|].
    intros m Hm. destruct (take_pair (str ".git") (str "refs") m Hm)
      as [E|E]; unfold refsDir; rewrite E; unfold headFile; discriminate. }
  assert (fs3 !! gitDir = Some Dir) as G3
    by (eapply os_MkdirAll_keeps; eassumption).
  destruct (os_WriteFile fs3 (str ".git/HEAD") headContents) as [fs4|] eqn:H4.
  - destruct (init_all_succeed _ _ _ _ _ H1 H2 H3 H4) as (-> & ? & ? & ? & ?).
    cbn [fst snd]. repeat split; assumption.
  - rewrite WriteFile_HEAD, F3, G3 in H4.
    destruct (fs !! headFile) as [[d|]|]; congruence.
Qed.

Lemma InitRepository_frame (fs : FS) (p : list bytes) :
  p <> gitDir -> p <> objectsDir -> p <> refsDir -> p <> headFile ->
  (InitRepository fs).2 !! p = fs !! p.
Proof.
  intros Hg Ho Hr Hh.
  destruct resolve_init_paths as (Rg & Ro & Rr & Rh).
  assert (forall (st : list string * FS) dir,
            (forall m, 0 < m -> p <> take m (resolve dir)) ->
            (makeDir st dir).2 !! p = st.2 !! p) as Hstep.
  { intros st dir Hp. unfold makeDir.
    destruct (os_MkdirAll st.2 (resolve dir)) as [fs'|] eqn:M; [|reflexivity].
    cbn [snd]. eapply os_MkdirAll_frame; eassumption. }
  rewrite InitRepository_steps. cbv zeta. cbn [snd].
  set (st3 := makeDir _ (str ".git/refs")).
  assert (st3.2 !! p = fs !! p) as E3.
  { unfold st3. rewrite !Hstep; [reflexivity| | |].
    - rewrite Rg. intros m Hm. unfold gitDir.
      now rewrite take_single by assumption.
    - rewrite Ro. intros m Hm.
      destruct (take_pair (str ".git") (str "objects") m Hm) as [E|E];
        unfold objectsDir; rewrite E; assumption.
    - rewrite Rr. intros m Hm.
      destruct (take_pair (str ".git") (str "refs") m Hm) as [E|E];
        unfold refsDir; rewrite E; assumption. }
  rewrite WriteFile_HEAD.
  destruct (st3.2 !! headFile) as [[d|]|]; cbn [snd]; try exact E3;
    destruct (st3.2 !! gitDir) as [[d'|]|]; cbn [snd]; try exact E3;
    now rewrite lookup_insert_ne by congruence.
Qed.

(** X1.  Where no regular file stands in the place of one of its three
    directories and no directory in the place of [HEAD], [init] reports no
    error and leaves the three directories and a [HEAD] that points at
    [refs/heads/main]. *)
Theorem init_creates_repository (fs : FS) :
  (forall d, fs !! gitDir <> Some (File d)) ->
  (forall d, fs !! objectsDir <> Some (File d)) ->
  (forall d, fs !! refsDir <> Some (File d)) ->
  fs !! headFile <> Some Dir ->
  (InitRepository fs).1.2 = [] /\
  (InitRepository fs).2 !! gitDir = Some Dir /\
  (InitRepository fs).2 !! objectsDir = Some Dir /\
  (InitRepository fs).2 !! refsDir = Some Dir /\
  (InitRepository fs).2 !! headFile = Some (File headContents).
Proof. apply InitRepository_succeeds. Qed.

(** X2.  [init] touches nothing but its three directories and [HEAD]:
    every other path, the stored objects among them, keeps its node. *)
Theorem init_keeps_other_paths (fs : FS) (p : list bytes) :
  p <> gitDir -> p <> objectsDir -> p <> refsDir -> p <> headFile ->
  (InitRepository fs).2 !! p = fs !! p.
Proof. apply InitRepository_frame. Qed.

(** X3.  Where [.git] is a regular file with nothing below it, [init]
    reports four errors, leaves the file system as it is, and still prints
    that the directory was initialised. *)
Theorem init_blocked_by_file (fs : FS) (d : bytes) :
  fs !! gitDir = Some (File d) ->
  fs !! objectsDir = None -> fs !! refsDir = None ->
  InitRepository fs
  = (str "Initialized git directory" ++ [LF],
     ["Error creating directory"; "Error creating directory";
      "Error creating directory"; "Error writing file"], fs).
Proof.
  intros G O R.
  destruct resolve_init_paths as (Rg & Ro & Rr & Rh).
  rewrite InitRepository_steps. unfold makeDir. cbn [fst snd].
  rewrite Rg, MkdirAll_gitDir, G. cbn [fst snd].
  rewrite Ro. unfold objectsDir. rewrite MkdirAll_below_gitDir.
  fold objectsDir. rewrite O, G. cbn [fst snd].
  rewrite Rr. unfold refsDir. rewrite MkdirAll_below_gitDir.
  fold refsDir. rewrite R, G. cbn [fst snd].
  rewrite WriteFile_HEAD, G.
  destruct (fs !! headFile) as [[d'|]|]; reflexivity.
Qed.

(** X4.  After an [init] that reported no error, a second [init] reports
    none and leaves the file system exactly as the first left it. *)
Theorem init_twice (fs : FS) :
  (InitRepository fs).1.2 = [] ->
  InitRepository (InitRepository fs).2
  = (str "Initialized git directory" ++ [LF], [], (InitRepository fs).2).
Proof.
  intros H. apply init_no_error in H as (fs1 & fs2 & fs3 & fs4 & H1 & H2 & H3 & H4).
  destruct (init_all_succeed _ _ _ _ _ H1 H2 H3 H4) as (-> & G & O & R & Hd).
  cbn [snd]. now apply init_on_repository.
Qed.

(** ** More of [hash-object] *)

Lemma os_ReadFile_Some (fs : FS) (p content : bytes) :
  os_ReadFile fs p = Some content <->
  resolve p <> [] /\ dirForm p = false /\
  fs !! resolve p = Some (File content).
Proof.
  unfold os_ReadFile, os_Open. destruct p as [|c p].
  - split; [discriminate|]. intros [H _]. now contradict H.
  - destruct (resolve (c :: p)) as [|c' q] eqn:E.
    + split; [discriminate|]. intros [H _]. now contradict H.
    + destruct (fs !! (c' :: q)) as [[d|]|];
        destruct (dirForm (c :: p)); split;
        try discriminate; try (intros (_ & _ & [=]); congruence);
        try (intros (_ & [=] & _)).
      intros [= ->]. repeat split. discriminate.
Qed.

Lemma blobId_path (content : bytes) :
  resolve (blobPath (blobId content))
  = [str ".git"; str "objects"; take 2 (blobId content);
     drop 2 (blobId content)].
Proof.
  destruct (blobId_valid content) as [Hhex Hlen].
  rewrite resolve_blobPath by lia. apply resolve_objectPath; [exact Hhex|lia].
Qed.

Lemma blobId_path_inj (c1 c2 : bytes) :
  resolve (blobPath (blobId c1)) = resolve (blobPath (blobId c2)) ->
  blobId c1 = blobId c2.
Proof.
  rewrite !blobId_path. intros [= H1 H2].
  now rewrite <- (take_drop 2 (blobId c1)), H1, H2, take_drop.
Qed.

Lemma take_objectDir (a b c : bytes) (m : nat) :
  0 < m ->
  take m [a; b; c] = [a] \/ take m [a; b; c] = [a; b] \/
  take m [a; b; c] = [a; b; c].
Proof.
  intros H. destruct m as [|[|[|m]]]; [lia|now left|now right; left|].
  right. right. simpl. now rewrite take_nil.
Qed.

Section Objects.

Variable zlib_deflate : bytes -> bytes.
Variable zlib_inflate : bytes -> inflated.
Hypothesis inflate_deflate :
  forall data, zlib_inflate (zlib_deflate data) = Inflated data.

(** What a successful [hash-object -w] did, step by step. *)
Lemma HashObject_steps (args : list bytes) (fs fs' : FS) (h : bytes) :
  HashObject zlib_deflate true args fs = (Done h, fs') ->
  exists content fsm,
    os_ReadFile fs (hd [] args) = Some content /\ h = blobId content /\
    os_MkdirAll fs (removelast (resolve (blobPath h))) = Some fsm /\
    fsm !! resolve (blobPath h) <> Some Dir /\
    fsm !! removelast (resolve (blobPath h)) = Some Dir /\
    fs' = <[resolve (blobPath h)
            := File (zlib_deflate (headerAndContent (length content) content))]>
            fsm.
Proof.
  unfold HashObject. intros H.
  destruct (os_ReadFile fs (hd [] args)) as [content|] eqn:R; [|discriminate].
  rewrite (os_Stat_ReadFile _ _ _ R) in H. fold (blobId content) in H.
  unfold filepath_Dir in H.
  destruct (os_MkdirAll fs _) as [fsm|] eqn:M; [|discriminate].
  destruct (os_Create fsm _) as [f|] eqn:C; [|discriminate].
  injection H as <- <-. exists content, fsm.
  repeat split; try assumption.
  - unfold os_Create in C. rewrite dirForm_blobId, blobId_path in *.
    destruct (fsm !! _) as [[d|]|]; congruence.
  - unfold os_Create in C. rewrite dirForm_blobId, blobId_path in *.
    cbn [removelast] in *. unfold is_dir in C.
    destruct (fsm !! [_; _; _; _]) as [[d|]|]; try discriminate;
      destruct (fsm !! [_; _; _]) as [[d'|]|]; congruence.
  - apply os_Create_Some in C as [-> _]. reflexivity.
Qed.

Lemma HashObject_keeps (args : list bytes) (fs fs' : FS) (h : bytes)
    (p : list bytes) (n : node) :
  HashObject zlib_deflate true args fs = (Done h, fs') ->
  fs !! p = Some n -> p <> resolve (blobPath h) -> fs' !! p = Some n.
Proof.
  intros H Hp Hne.
  apply HashObject_steps in H as (content & fsm & _ & _ & M & _ & _ & ->).
  rewrite lookup_insert_ne by congruence.
  eapply os_MkdirAll_keeps; eassumption.
Qed.

Lemma HashObject_writes (args : list bytes) (fs : FS) (content : bytes) :
  os_ReadFile fs (hd [] args) = Some content ->
  (forall m d,
     0 < m ->
     fs !! take m (removelast (resolve (blobPath (blobId content))))
     <> Some (File d)) ->
  fs !! resolve (blobPath (blobId content)) <> Some Dir ->
  exists fs',
    HashObject zlib_deflate true args fs = (Done (blobId content), fs').
Proof.
  intros R Hfree Hfile. unfold HashObject.
  rewrite R, (os_Stat_ReadFile _ _ _ R). fold (blobId content).
  unfold filepath_Dir.
  destruct (os_MkdirAll_free _ _ Hfree) as [fsm M]. rewrite M.
  assert (fsm !! resolve (blobPath (blobId content))
          = fs !! resolve (blobPath (blobId content))) as Hsame.
  { eapply os_MkdirAll_frame; [exact M|]. intros m Hm E.
    apply (f_equal length) in E. rewrite blobId_path in E.
    cbn [removelast] in E. rewrite length_take in E. simpl in E. lia. }
  assert (fsm !! removelast (resolve (blobPath (blobId content))) = Some Dir)
    as Hdir.
  { eapply os_MkdirAll_Dir; [exact M|]. rewrite blobId_path. discriminate. }
  unfold os_Create. rewrite dirForm_blobId, Hsame, (is_dir_lookup _ _ Hdir).
  rewrite blobId_path in *.
  destruct (fs !! [_; _; _; _]) as [[d|]|]; eauto. congruence.
Qed.

(** X5.  Whatever [hash-object] prints as an identifier is forty
    lowercase hexadecimal characters. *)
Theorem identifier_is_forty_hex (write : bool) (args : list bytes)
    (fs fs' : FS) (h : bytes) :
  HashObject zlib_deflate write args fs = (Done h, fs') ->
  length h = 40 /\ Forall hexChar h.
Proof.
  unfold HashObject. intros H.
  destruct (os_ReadFile fs (hd [] args)) as [content|]; [|discriminate].
  destruct (os_Stat fs (hd [] args)) as [size|]; [|discriminate].
  assert (h = fmt_x (SHA1.Sum (headerAndContent size content))) as ->.
  { destruct write; [|congruence].
    destruct (os_MkdirAll fs _); [|discriminate].
    destruct (os_Create _ _); [|discriminate]. congruence. }
  split; [apply length_hash|apply fmt_x_hexChar].
Qed.



(** X8.  A second [hash-object -w] of the same file prints the same
    identifier and leaves the file system exactly as the first left it,
    the file hashed not being the object file itself. *)
Theorem hash_object_twice (args : list bytes) (fs fs' : FS) (h : bytes) :
  HashObject zlib_deflate true args fs = (Done h, fs') ->
  resolve (hd [] args) <> resolve (blobPath h) ->
  HashObject zlib_deflate true args fs' = (Done h, fs').
Proof.
  intros H Hne. pose proof H as Hrun.
  apply HashObject_steps in H
    as (content & fsm & R & -> & M & Hq & Hdir & ->).
  set (q := resolve (blobPath (blobId content))) in *.
  set (buffer := zlib_deflate (headerAndContent (length content) content)).
  assert (removelast q <> []) as Hd0
    by (unfold q; rewrite blobId_path; discriminate).
  assert (q <> removelast q) as Hqd.
  { unfold q. rewrite blobId_path. discriminate. }
  assert (os_ReadFile (<[q := File buffer]> fsm) (hd [] args) = Some content)
    as R'.
  { apply os_ReadFile_Some in R as (R0 & Rd & R). apply os_ReadFile_Some.
    split; [exact R0|]. split; [exact Rd|].
    rewrite lookup_insert_ne by congruence.
    eapply os_MkdirAll_keeps; eassumption. }
  unfold HashObject. rewrite R', (os_Stat_ReadFile _ _ _ R').
  fold (blobId content). unfold filepath_Dir. fold q. fold buffer.
  rewrite os_MkdirAll_exists;
    [|exact Hd0|now rewrite lookup_insert_ne by exact Hqd].
  unfold os_Create. rewrite dirForm_blobId. fold q.
  rewrite lookup_insert_eq.
  rewrite (is_dir_lookup _ (removelast q))
    by (now rewrite lookup_insert_ne by exact Hqd).
  destruct q as [|c q'] eqn:Eq; [now contradict Hd0|].
  unfold file_Write. now rewrite insert_insert_eq.
Qed.

(** X9.  Storing a second object does not disturb the first: after two
    successful [hash-object -w] with different identifiers, [cat-file -p]
    on the first identifier still prints the first file. *)
Theorem second_object_keeps_first (args1 args2 : list bytes)
    (fs fs1 fs2 : FS) (h1 h2 : bytes) :
  HashObject zlib_deflate true args1 fs = (Done h1, fs1) ->
  HashObject zlib_deflate true args2 fs1 = (Done h2, fs2) ->
  h1 <> h2 ->
  exists content,
    os_ReadFile fs (hd [] args1) = Some content /\
    CatFile zlib_inflate true [h1] fs2 = Done content.
Proof.
  intros H1 H2 Hne.
  pose proof (HashObject_written _ _ _ _ _ H1) as (c1 & R1 & -> & F1).
  pose proof (HashObject_written _ _ _ _ _ H2) as (c2 & _ & -> & _).
  exists c1. split; [exact R1|].
  assert (fs2 !! resolve (blobPath (blobId c1))
          = Some (File (zlib_deflate (headerAndContent (length c1) c1))))
    as F2.
  { eapply HashObject_keeps; [exact H2|exact F1|].
    intros E. apply Hne. now apply blobId_path_inj. }
  rewrite (CatFile_object _ _ inflate_deflate true _ _ _ []
             (proj1 (blobId_valid c1)) (blobId_long c1) F2).
  now rewrite splitObject_envelope.
Qed.

(** X10.  In a working directory with nothing at or below [.git], [init]
    followed by [hash-object -w] of a readable file succeeds, and
    [cat-file -p] on the identifier it prints gives the file back. *)
Theorem init_put_get (args : list bytes) (fs : FS) (content : bytes) :
  (forall q, fs !! (str ".git" :: q) = None) ->
  os_ReadFile fs (hd [] args) = Some content ->
  exists fs2,
    HashObject zlib_deflate true args (InitRepository fs).2
    = (Done (blobId content), fs2) /\
    CatFile zlib_inflate true [blobId content] fs2 = Done content.
Proof.
  intros Hfresh R.
  destruct (InitRepository_succeeds fs) as (_ & G & O & _ & _);
    try (intros d; unfold gitDir, objectsDir, refsDir; rewrite Hfresh;
         discriminate);
    [unfold headFile; rewrite Hfresh; discriminate|].
  set (fs1 := (InitRepository fs).2) in *.
  assert (forall p n, fs !! p = Some n -> fs1 !! p = Some n) as Hkeep.
  { intros p n Hp. unfold fs1. rewrite InitRepository_frame; [exact Hp| | | |];
      intros ->; unfold gitDir, objectsDir, refsDir, headFile in Hp;
      rewrite Hfresh in Hp; discriminate. }
  assert (os_ReadFile fs1 (hd [] args) = Some content) as R1.
  { apply os_ReadFile_Some in R as (R0 & Rd & R). apply os_ReadFile_Some.
    split; [exact R0|]. split; [exact Rd|now apply Hkeep]. }
  destruct (HashObject_writes args fs1 content R1) as [fs2 H].
  - intros m d Hm. rewrite blobId_path. cbn [removelast].
    destruct (take_objectDir (str ".git") (str "objects")
                (take 2 (blobId content)) m Hm) as [E|[E|E]]; rewrite E.
    + fold gitDir. rewrite G. discriminate.
    + fold objectsDir. rewrite O. discriminate.
    + unfold fs1. rewrite InitRepository_frame, Hfresh; discriminate.
  - rewrite blobId_path. unfold fs1.
    rewrite InitRepository_frame, Hfresh; discriminate.
  - exists fs2. split; [exact H|].
    pose proof (HashObject_written _ _ _ _ _ H) as (c & Rc & _ & F).
    assert (c = content) as -> by congruence.
    rewrite (CatFile_object _ _ inflate_deflate true _ _ _ []
               (proj1 (blobId_valid content)) (blobId_long content) F).
    now rewrite splitObject_envelope.
Qed.

End Objects.

(** X11.  The envelope tells the size and the content apart from every
    other: two envelopes are equal only for the same size and the same
    content, so two files get one identifier only where SHA-1 collides. *)
Theorem envelope_injective (size1 size2 : nat) (content1 content2 : bytes) :
  headerAndContent size1 content1 = headerAndContent size2 content2 ->
  size1 = size2 /\ content1 = content2.
Proof.
  intros H.
  assert (forall size content,
            splitObject (headerAndContent size content)
            = Some (str "blob " ++ fmt_d size, content)) as Hsplit.
  { intros size content. unfold headerAndContent. rewrite app_assoc.
    apply splitObject_app, header_no_NUL. }
  pose proof (Hsplit size1 content1) as E1.
  rewrite H, Hsplit in E1. injection E1 as E1 E2.
  split; [|congruence].
  apply (f_equal atoi) in E1. rewrite !atoi_fmt_d in E1. congruence.
Qed.

(** ** More of the loop over a tree *)

Lemma scanFrom_Done (stop : ascii) (rest : bytes) :
  forall i j,
  scanFrom stop rest i = Done j ->
  i <= j /\ rest !! (j - i) = Some stop /\ (stop ∉ take (j - i) rest).
Proof.
  induction rest as [|b rest IH]; intros i j H; simpl in H; [discriminate|].
  destruct (decide (b = stop)) as [->|Hb].
  - injection H as <-. rewrite Nat.sub_diag. repeat split; [lia|].
    simpl. apply not_elem_of_nil.
  - apply IH in H as (Hle & Hl & Hn).
    replace (j - i) with (S (j - S i)) by lia.
    repeat split; [lia|exact Hl|].
    simpl. rewrite not_elem_of_cons. split; [congruence|exact Hn].
Qed.

Lemma scan_Done (stop : ascii) (s : slice) (i j : nat) :
  scan stop s i = Done j ->
  i <= j /\ j < len s /\ elems s !! j = Some stop /\
  (stop ∉ take (j - i) (drop i (elems s))).
Proof.
  intros H. apply scanFrom_Done in H as (Hle & Hl & Hn).
  rewrite lookup_drop in Hl. replace (i + (j - i)) with j in Hl by lia.
  repeat split; try assumption.
  apply lookup_lt_Some in Hl. exact Hl.
Qed.

Lemma reslice_Done (s : slice) (i j : nat) (a : bytes) :
  reslice s i j = Done a ->
  i <= j /\ j <= cap s /\ a = take (j - i) (drop i (elems s ++ spare s)).
Proof.
  unfold reslice.
  destruct (Nat.leb_spec i j); [|discriminate].
  destruct (Nat.leb_spec j (cap s)); [|discriminate].
  intros [= <-]. auto.
Qed.

Lemma reslice_Done_within (s : slice) (i j : nat) (a : bytes) :
  reslice s i j = Done a -> j <= len s ->
  a = take (j - i) (drop i (elems s)).
Proof.
  intros H Hj. apply reslice_Done in H as (Hi & _ & ->).
  unfold len in Hj. rewrite drop_app_le by lia.
  apply take_app_le. rewrite length_drop. lia.
Qed.

Lemma reslice_Done_length (s : slice) (i j : nat) (a : bytes) :
  reslice s i j = Done a -> length a = j - i.
Proof.
  intros H. apply reslice_Done in H as (Hi & Hj & ->). unfold cap in Hj.
  rewrite length_take, length_drop, length_app. lia.
Qed.

(** One turn of the loop that went through. *)
Lemma parseEntries_body (fuel : nat) (s : slice) (i : nat)
    (acc es : list entry) :
  i < len s ->
  parseEntries (S fuel) s i acc = Done es ->
  exists j k sha,
    i <= j /\ j < k /\ k < len s /\
    elems s !! j = Some SP /\ elems s !! k = Some NUL /\
    (SP ∉ take (j - i) (drop i (elems s))) /\
    (NUL ∉ take (k - S j) (drop (S j) (elems s))) /\
    reslice s (S k) (S k + 20) = Done sha /\
    parseEntries fuel s (S k + 20)
      (acc ++ [{| Mode := take (j - i) (drop i (elems s));
                  Name := take (k - S j) (drop (S j) (elems s));
                  Sha := fmt_x sha |}])
    = Done es.
Proof.
  intros Hi H. cbn [parseEntries] in H.
  destruct (Nat.leb_spec (len s) i); [lia|].
  destruct (scan SP s i) as [j| | |] eqn:S1; try discriminate.
  cbn [mbind outcome_bind] in H.
  destruct (reslice s i j) as [mode| | |] eqn:R1; try discriminate.
  cbn [mbind outcome_bind] in H.
  destruct (scan NUL s (S j)) as [k| | |] eqn:S2; try discriminate.
  cbn [mbind outcome_bind] in H.
  destruct (reslice s (S j) k) as [name| | |] eqn:R2; try discriminate.
  cbn [mbind outcome_bind] in H.
  destruct (reslice s (S k) (S k + 20)) as [sha| | |] eqn:R3;
    try discriminate.
  cbn [mbind outcome_bind] in H.
  apply scan_Done in S1 as (Hij & Hj & Lj & Nj).
  apply scan_Done in S2 as (Hjk & Hk & Lk & Nk).
  apply reslice_Done_within in R1; [|lia].
  apply reslice_Done_within in R2; [|lia].
  subst mode name. exists j, k, sha.
  repeat split; try assumption; lia.
Qed.

Lemma parseEntries_shape (fuel : nat) :
  forall (s : slice) (i : nat) (acc es : list entry),
  parseEntries fuel s i acc = Done es ->
  Forall (fun e => (SP ∉ Mode e) /\ (NUL ∉ Name e) /\
                   length (Sha e) = 40 /\ Forall hexChar (Sha e)) acc ->
  Forall (fun e => (SP ∉ Mode e) /\ (NUL ∉ Name e) /\
                   length (Sha e) = 40 /\ Forall hexChar (Sha e)) es.
Proof.
  induction fuel as [|fuel IH]; intros s i acc es H Hacc.
  - cbn [parseEntries] in H. destruct (len s <=? i); [|discriminate].
    now injection H as <-.
  - destruct (Nat.le_gt_cases (len s) i) as [Hi|Hi].
    + rewrite parseEntries_past_end in H by assumption. now injection H as <-.
    + apply parseEntries_body in H
        as (j & k & sha & _ & _ & _ & _ & _ & Nj & Nk & R & H); [|exact Hi].
      apply IH in H; [exact H|].
      apply Forall_app. split; [exact Hacc|].
      constructor; [|constructor]. cbn [Mode Name Sha].
      repeat split; try assumption; [|apply fmt_x_hexChar].
      rewrite length_fmt_x, (reslice_Done_length _ _ _ _ R). lia.
Qed.

(** X12.  Every entry the loop of [ls-tree] returns, on any bytes at all,
    has a mode without a space, a name without a NUL byte and an
    identifier of forty lowercase hexadecimal characters. *)
Theorem parsed_entries_shape (s : slice) (es : list entry) :
  parseTree s = Done es ->
  Forall (fun e => (SP ∉ Mode e) /\ (NUL ∉ Name e) /\
                   length (Sha e) = 40 /\ Forall hexChar (Sha e)) es.
Proof.
  intros H. eapply parseEntries_shape; [exact H|constructor].
Qed.

Lemma parseEntries_stored (fuel : nat) :
  forall (s : slice) (i : nat) (acc es : list entry),
  spare s = [] -> i <= len s ->
  parseEntries fuel s i acc = Done es ->
  exists raw,
    Forall wellFormed raw /\ drop i (elems s) = treeBytes raw /\
    es = acc ++ map listed raw.
Proof.
  induction fuel as [|fuel IH]; intros s i acc es Hsp Hi H.
  - cbn [parseEntries] in H.
    destruct (Nat.leb_spec (len s) i); [|discriminate].
    injection H as <-. exists []. unfold len in *.
    rewrite drop_ge by lia. now rewrite app_nil_r.
  - destruct (Nat.le_gt_cases (len s) i) as [Hlen|Hlen].
    + rewrite parseEntries_past_end in H by assumption.
      injection H as <-. exists []. unfold len in *.
      rewrite drop_ge by lia. now rewrite app_nil_r.
    + apply parseEntries_body in H
        as (j & k & sha & Hij & Hjk & Hk & Lj & Lk & Nj & Nk & R & H);
        [|exact Hlen].
      pose proof (reslice_Done_length _ _ _ _ R) as Hsha.
      apply reslice_Done in R as (_ & Hcap & Esha).
      unfold cap in Hcap. rewrite Hsp in Hcap, Esha.
      rewrite app_nil_r in Esha. simpl in Hcap.
      replace (S k + 20 - S k) with 20 in * by lia.
      apply IH in H as (raw & Hraw & Hdrop & ->);
        [|exact Hsp|unfold len; lia].
      set (mode := take (j - i) (drop i (elems s))) in *.
      set (name := take (k - S j) (drop (S j) (elems s))) in *.
      exists ({| Mode := mode; Name := name; Sha := sha |} :: raw).
      split; [|split].
      * constructor; [|exact Hraw]. repeat split; assumption.
      * change (treeBytes ({| Mode := mode; Name := name; Sha := sha |} :: raw))
          with ((mode ++ [SP] ++ name ++ [NUL] ++ sha) ++ treeBytes raw).
        rewrite <- Hdrop.
        rewrite <- (take_drop (j - i) (drop i (elems s))) at 1.
        fold mode. rewrite drop_drop.
        replace (i + (j - i)) with j by lia.
        rewrite (drop_S _ _ _ Lj).
        rewrite <- (take_drop (k - S j) (drop (S j) (elems s))) at 1.
        fold name. rewrite drop_drop.
        replace (S j + (k - S j)) with k by lia.
        rewrite (drop_S _ _ _ Lk).
        rewrite <- (take_drop 20 (drop (S k) (elems s))) at 1.
        rewrite <- Esha, drop_drop.
        rewrite <- !app_assoc. reflexivity.
      * rewrite <- app_assoc. reflexivity.
Qed.

(** X13.  On a buffer without spare capacity the loop accepts the stored
    trees only: whenever it returns entries, the bytes are exactly the
    stored form of well-formed entries, and what it returns is those
    entries, in their order, with their identifiers in hexadecimal. *)
Theorem parsed_tree_is_stored_tree (treeContent : bytes) (es : list entry) :
  parseTree {| elems := treeContent; spare := [] |} = Done es ->
  exists raw,
    Forall wellFormed raw /\ treeContent = treeBytes raw /\
    es = map listed raw.
Proof.
  intros H. apply parseEntries_stored in H as (raw & Hraw & Hdrop & ->);
    [|reflexivity|lia].
  exists raw. repeat split; assumption.
Qed.

(** ** More of [cat-file] and [ls-tree] *)

Lemma listed_namesIdentify (es : list entry) :
  namesIdentify es -> namesIdentify (map listed es).
Proof.
  intros H a b Ha Hb Hn.
  apply list_elem_of_fmap in Ha as (a' & -> & Ha).
  apply list_elem_of_fmap in Hb as (b' & -> & Hb).
  f_equal. now apply H.
Qed.

Lemma resolve_two_characters (sha : bytes) :
  Forall hexChar sha -> length sha = 2 ->
  resolve (str ".git/objects/" ++ take 2 sha ++ [SLASH] ++ drop 2 sha)
  = [str ".git"; str "objects"; sha].
Proof.
  intros Hhex Hlen.
  rewrite take_ge, drop_ge by lia.
  unfold resolve. rewrite components_objects.
  change ([SLASH] ++ []) with (SLASH :: @nil ascii).
  rewrite components_app_slash by now apply hex_no_slash.
  cbn [components].
  rewrite 2!filter_cons_True by (split; discriminate).
  rewrite filter_cons_True.
  - rewrite filter_cons_False by (intros [H _]; now apply H). reflexivity.
  - split; [|apply hex_not_dot; [exact Hhex|]];
      intros ->; discriminate Hlen.
Qed.

Section Reading.

Variable zlib_deflate : bytes -> bytes.
Variable zlib_inflate : bytes -> inflated.
Variable sort_Slice : (entry -> entry -> bool) -> list entry -> list entry.

Hypothesis inflate_deflate :
  forall data, zlib_inflate (zlib_deflate data) = Inflated data.
Hypothesis sort_Slice_Permutation :
  forall l, Permutation (sort_Slice byName l) l.
Hypothesis sort_Slice_sorted :
  forall l, StronglySorted notAfter (sort_Slice byName l).

(** X14.  What [ls-tree] lists does not depend on the order in which the
    tree object stores its entries, as long as names tell the entries
    apart: two stored trees with the same entries are listed alike. *)
Theorem listing_ignores_stored_order (es1 es2 : list entry) (sp1 sp2 : bytes) :
  Forall wellFormed es1 -> Permutation es1 es2 -> namesIdentify es1 ->
  listEntries sort_Slice {| elems := treeBytes es1; spare := sp1 |}
  = listEntries sort_Slice {| elems := treeBytes es2; spare := sp2 |}.
Proof.
  intros Hwf P Hid. unfold listEntries.
  assert (Forall wellFormed es2) as Hwf2 by now rewrite <- P.
  rewrite !parseTree_treeBytes by assumption. cbn [mbind outcome_bind].
  assert (namesIdentify (map listed es1)) as Hid1
    by now apply listed_namesIdentify.
  assert (Permutation (map listed es1) (map listed es2)) as P'
    by now apply Permutation_map.
  f_equal.
  rewrite !(sort_Slice_unique sort_Slice sort_Slice_Permutation
              sort_Slice_sorted).
  - apply sorted_Permutation_eq.
    + intros a b Ha Hb. rewrite insertionSort_Permutation in Ha, Hb.
      now apply Hid1.
    + apply insertionSort_sorted.
    + apply insertionSort_sorted.
    + now rewrite !insertionSort_Permutation.
  - intros a b Ha Hb. rewrite <- P' in Ha, Hb. now apply Hid1.
  - exact Hid1.
Qed.

(** X15.  A tree object with nothing after its header, stored under a
    hexadecimal identifier of at least three characters, makes [ls-tree]
    print nothing and return. *)
Theorem empty_tree_lists_nothing (nameOnly : bool) (sha data header : bytes)
    (readAll : bytes) (fs : FS) (rest : list bytes) :
  Forall hexChar sha -> 3 <= length sha ->
  fs !! [str ".git"; str "objects"; take 2 sha; drop 2 sha]
  = Some (File data) ->
  zlib_inflate data = Inflated (header ++ [NUL]) -> (NUL ∉ header) ->
  LsTree zlib_inflate sort_Slice nameOnly (sha :: rest) readAll fs = Done [].
Proof.
  intros Hhex Hlen Hfile Hz Hh.
  rewrite <- (resolve_objectPath sha Hhex Hlen) in Hfile.
  rewrite <- resolve_blobPath in Hfile by lia.
  rewrite (LsTree_object zlib_inflate sort_Slice nameOnly sha data header []
             readAll fs rest Hhex Hlen Hfile Hz Hh (List.Forall_nil _)).
  cbn [map]. rewrite (proj1 (Permutation_nil_r _) (sort_Slice_Permutation [])).
  reflexivity.
Qed.

(** X16.  For a hexadecimal identifier of at least two characters with
    nothing at its path, [cat-file] and [ls-tree] both exit on "Failed to
    open object". *)
Theorem missing_object_is_not_opened (flag : bool) (sha : bytes)
    (readAll : bytes) (fs : FS) (rest : list bytes) :
  Forall hexChar sha -> 2 <= length sha ->
  fs !! resolve (blobPath sha) = None ->
  CatFile zlib_inflate flag (sha :: rest) fs = Exit1 "Failed to open object" /\
  LsTree zlib_inflate sort_Slice flag (sha :: rest) readAll fs
  = Exit1 "Failed to open object".
Proof.
  intros Hhex Hlen Hnone. rewrite resolve_blobPath in Hnone by assumption.
  unfold CatFile, LsTree. cbn [hd].
  rewrite objectPath_eq by assumption. cbn [mbind outcome_bind].
  rewrite (os_Open_None _ _ (resolve_objects_nonempty _) Hnone).
  split; reflexivity.
Qed.

(** X21.  An identifier of exactly two hexadecimal characters asks for the
    directory of its objects: where a regular file stands in its place,
    nothing is opened and [cat-file] and [ls-tree] both exit on "Failed to
    open object". *)
Theorem file_in_place_of_fanout_directory (flag : bool) (sha data : bytes)
    (readAll : bytes) (fs : FS) (rest : list bytes) :
  Forall hexChar sha -> length sha = 2 ->
  fs !! [str ".git"; str "objects"; sha] = Some (File data) ->
  CatFile zlib_inflate flag (sha :: rest) fs = Exit1 "Failed to open object" /\
  LsTree zlib_inflate sort_Slice flag (sha :: rest) readAll fs
  = Exit1 "Failed to open object".
Proof.
  intros Hhex Hlen Hfile. unfold CatFile, LsTree. cbn [hd].
  rewrite objectPath_eq by lia. cbn [mbind outcome_bind].
  rewrite os_Open_dirForm
    by (apply resolve_objects_nonempty || now apply dirForm_two_characters).
  rewrite resolve_two_characters, Hfile by assumption.
  split; reflexivity.
Qed.

(** X22.  An object without a NUL byte, stored under a hexadecimal
    identifier of at least three characters, makes [cat-file] exit on
    "Invalid Git object format (no null byte found)" and [ls-tree] on
    "Invalid format", before any entry is read. *)
Theorem object_without_NUL (flag : bool) (sha data content : bytes)
    (readAll : bytes) (fs : FS) (rest : list bytes) :
  Forall hexChar sha -> 3 <= length sha ->
  fs !! [str ".git"; str "objects"; take 2 sha; drop 2 sha]
  = Some (File data) ->
  zlib_inflate data = Inflated content -> (NUL ∉ content) ->
  CatFile zlib_inflate flag (sha :: rest) fs
  = Exit1 "Invalid Git object format (no null byte found)" /\
  LsTree zlib_inflate sort_Slice flag (sha :: rest) readAll fs
  = Exit1 "Invalid format".
Proof.
  intros Hhex Hlen Hfile Hz Hn.
  rewrite <- (resolve_objectPath sha Hhex Hlen) in Hfile.
  unfold CatFile, LsTree. cbn [hd].
  rewrite objectPath_eq by lia. cbn [mbind outcome_bind].
  rewrite os_Open_lookup, Hfile, Hz
    by (apply resolve_objects_nonempty || now apply dirForm_objectPath).
  rewrite (proj2 (splitObject_None content) Hn).
  apply nullIndex_None in Hn. rewrite Hn. split; reflexivity.
Qed.

(** X17.  An identifier of exactly two hexadecimal characters names the
    directory of its objects: where that directory exists [cat-file]
    exits on "Failed to create zlib reader" and [ls-tree] on "Failed to
    read file". *)
Theorem two_character_identifier (flag : bool) (sha : bytes)
    (readAll : bytes) (fs : FS) (rest : list bytes) :
  Forall hexChar sha -> length sha = 2 ->
  fs !! [str ".git"; str "objects"; sha] = Some Dir ->
  CatFile zlib_inflate flag (sha :: rest) fs
  = Exit1 "Failed to create zlib reader" /\
  LsTree zlib_inflate sort_Slice flag (sha :: rest) readAll fs
  = Exit1 "Failed to read file".
Proof.
  intros Hhex Hlen Hdir. unfold CatFile, LsTree. cbn [hd].
  rewrite objectPath_eq by lia. cbn [mbind outcome_bind].
  rewrite os_Open_dirForm
    by (apply resolve_objects_nonempty || now apply dirForm_two_characters).
  rewrite resolve_two_characters, Hdir by assumption.
  split; reflexivity.
Qed.

(** X18.  [ls-tree] does not look at the type in the header: on the
    identifier of a blob whose content is a stored tree it lists the
    entries of that content. *)
Theorem ls_tree_lists_a_blob (nameOnly : bool) (args : list bytes)
    (fs fs' : FS) (h : bytes) (es : list entry) (readAll : bytes) :
  HashObject zlib_deflate true args fs = (Done h, fs') ->
  os_ReadFile fs (hd [] args) = Some (treeBytes es) ->
  Forall wellFormed es ->
  LsTree zlib_inflate sort_Slice nameOnly [h] readAll fs'
  = Done (printEntries nameOnly (sort_Slice byName (map listed es))).
Proof.
  intros H R Hwf.
  pose proof (HashObject_written _ _ _ _ _ H) as (c & Rc & -> & F).
  assert (c = treeBytes es) as -> by congruence.
  apply (LsTree_object zlib_inflate sort_Slice nameOnly _
           (zlib_deflate
              (headerAndContent (length (treeBytes es)) (treeBytes es)))
           (str "blob " ++ fmt_d (length (treeBytes es))) es readAll fs' []).
  - apply blobId_valid.
  - apply blobId_long.
  - exact F.
  - rewrite inflate_deflate. unfold headerAndContent.
    now rewrite <- !app_assoc.
  - apply header_no_NUL.
  - exact Hwf.
Qed.

End Reading.

(** ** [main] and the flags *)

Lemma parseFlags_positional (flagName : bytes) (value : bool) (s : bytes)
    (rest : list bytes) :
  head s <> Some "-"%char ->
  parseFlags flagName value (s :: rest) = Flags value (s :: rest).
Proof.
  intros H. destruct s as [|c0 [|c1 tl]]; try reflexivity.
  cbn [parseFlags]. rewrite bool_decide_eq_false_2; [reflexivity|].
  intros ->. now apply H.
Qed.

Section Dispatch.

Variable zlib_deflate : bytes -> bytes.
Variable zlib_inflate : bytes -> inflated.
Variable sort_Slice : (entry -> entry -> bool) -> list entry -> list entry.
Variable WriteTree : FS -> outcome bytes * FS.

Lemma HashObject_dry_fs (args : list bytes) (fs : FS) :
  (HashObject zlib_deflate false args fs).2 = fs.
Proof.
  unfold HashObject. destruct (os_ReadFile fs _); [|reflexivity].
  destruct (os_Stat fs _); reflexivity.
Qed.

(** X19.  The flags are read up to the first argument that is no flag:
    whatever follows the identifier, [-p] or [--name-only] included, has no
    effect, and [cat-file] prints the header and [ls-tree] the full
    lines. *)
Theorem arguments_after_identifier (prog sha : bytes) (rest : list bytes)
    (readAll : bytes) (fs : FS) :
  head sha <> Some "-"%char ->
  main zlib_deflate zlib_inflate sort_Slice WriteTree
    (prog :: str "cat-file" :: sha :: rest) readAll fs
  = (Ran (CatFile zlib_inflate false [sha] fs), fs) /\
  main zlib_deflate zlib_inflate sort_Slice WriteTree
    (prog :: str "ls-tree" :: sha :: rest) readAll fs
  = (Ran (LsTree zlib_inflate sort_Slice false [sha] readAll fs), fs).
Proof.
  intros H. unfold main, withFlags.
  rewrite !parseFlags_positional by exact H.
  split; reflexivity.
Qed.

(** X20.  [hash-object file -w] writes nothing: the flag after the file
    name is not read, the identifier is printed and the file system is left
    as it is. *)
Theorem write_flag_after_file (prog file : bytes) (rest : list bytes)
    (readAll : bytes) (fs : FS) :
  head file <> Some "-"%char ->
  main zlib_deflate zlib_inflate sort_Slice WriteTree
    (prog :: str "hash-object" :: file :: rest) readAll fs
  = (Ran (HashObject zlib_deflate false [file] fs).1, fs).
Proof.
  intros H. unfold main, withFlags.
  rewrite !parseFlags_positional by exact H.
  change (bool_decide (str "hash-object" = str "init")) with false.
  change (bool_decide (str "hash-object" = str "cat-file")) with false.
  change (bool_decide (str "hash-object" = str "hash-object")) with true.
  cbv beta iota zeta. f_equal. apply HashObject_dry_fs.
Qed.

End Dispatch.

(** * The further theorems at concrete inputs *)

Lemma init_creates_repository_witness :
  (InitRepository helloFS).1.2 = [] /\
  (InitRepository helloFS).2 !! gitDir = Some Dir /\
  (InitRepository helloFS).2 !! objectsDir = Some Dir /\
  (InitRepository helloFS).2 !! refsDir = Some Dir /\
  (InitRepository helloFS).2 !! headFile = Some (File headContents).
Proof.
  apply (init_creates_repository helloFS);
    try (intros d H; vm_compute in H; discriminate H).
  intros H; vm_compute in H; discriminate H.
Defined.

Lemma init_keeps_other_paths_witness :
  (InitRepository helloFS).2 !! [str "test.txt"] = helloFS !! [str "test.txt"].
Proof.
  apply (init_keeps_other_paths helloFS [str "test.txt"]); discriminate.
Defined.

Lemma init_blocked_by_file_witness :
  InitRepository blockedFS
  = (str "Initialized git directory" ++ [LF],
     ["Error creating directory"; "Error creating directory";
      "Error creating directory"; "Error writing file"], blockedFS).
Proof.
  apply (init_blocked_by_file blockedFS []); vm_compute; reflexivity.
Defined.

Lemma init_twice_witness :
  InitRepository (InitRepository helloFS).2
  = (str "Initialized git directory" ++ [LF], [], (InitRepository helloFS).2).
Proof. apply (init_twice helloFS). vm_compute. reflexivity. Defined.

Lemma identifier_is_forty_hex_witness :
  length helloId = 40 /\ Forall hexChar helloId.
Proof.
  apply (identifier_is_forty_hex stored_deflate false [str "test.txt"]
           helloFS helloFS helloId).
  vm_compute. reflexivity.
Defined.



Lemma hash_object_twice_witness :
  HashObject stored_deflate true [str "test.txt"]
    (HashObject stored_deflate true [str "test.txt"] helloFS).2
  = (Done helloId, (HashObject stored_deflate true [str "test.txt"] helloFS).2).
Proof.
  apply (hash_object_twice stored_deflate [str "test.txt"] helloFS).
  - apply injective_projections; [vm_compute|]; reflexivity.
  - vm_compute. discriminate.
Defined.

Lemma second_object_keeps_first_witness :
  exists content,
    os_ReadFile twoFilesFS (hd [] [str "test.txt"]) = Some content /\
    CatFile stored_inflate true [helloId]
      (HashObject stored_deflate true [str "other.txt"]
         (HashObject stored_deflate true [str "test.txt"] twoFilesFS).2).2
    = Done content.
Proof.
  apply (second_object_keeps_first stored_deflate stored_inflate
           (fun data => eq_refl) [str "test.txt"] [str "other.txt"]
           twoFilesFS
           (HashObject stored_deflate true [str "test.txt"] twoFilesFS).2
           _ helloId (blobId (str "hello"))).
  - apply injective_projections; [vm_compute|]; reflexivity.
  - apply injective_projections; [vm_compute|]; reflexivity.
  - vm_compute. discriminate.
Defined.

Lemma init_put_get_witness :
  exists fs2,
    HashObject stored_deflate true [str "test.txt"] (InitRepository helloFS).2
    = (Done (blobId (str "hello world")), fs2) /\
    CatFile stored_inflate true [blobId (str "hello world")] fs2
    = Done (str "hello world").
Proof.
  apply (init_put_get stored_deflate stored_inflate (fun data => eq_refl)
           [str "test.txt"] helloFS (str "hello world")).
  - intros q. unfold helloFS. apply lookup_singleton_ne. discriminate.
  - vm_compute. reflexivity.
Defined.

Lemma envelope_injective_witness :
  11 = 11 /\ str "hello world" = str "hello world".
Proof.
  apply (envelope_injective 11 11 (str "hello world") (str "hello world")).
  reflexivity.
Defined.

Lemma parsed_entries_shape_witness :
  Forall (fun e => (SP ∉ Mode e) /\ (NUL ∉ Name e) /\
                   length (Sha e) = 40 /\ Forall hexChar (Sha e))
    [listed entryB; listed entryA].
Proof.
  apply (parsed_entries_shape
           {| elems := treeBytes [entryB; entryA]; spare := [] |}).
  vm_compute. reflexivity.
Defined.

Lemma parsed_tree_is_stored_tree_witness :
  exists raw,
    Forall wellFormed raw /\ treeBytes [entryB; entryA] = treeBytes raw /\
    [listed entryB; listed entryA] = map listed raw.
Proof.
  apply (parsed_tree_is_stored_tree (treeBytes [entryB; entryA])).
  vm_compute. reflexivity.
Defined.

Lemma listing_ignores_stored_order_witness :
  listEntries insertionSort {| elems := treeBytes [entryB; entryA]; spare := [] |}
  = listEntries insertionSort {| elems := treeBytes [entryA; entryB]; spare := [] |}.
Proof.
  apply (listing_ignores_stored_order insertionSort insertionSort_Permutation
           insertionSort_sorted [entryB; entryA] [entryA; entryB] [] []).
  - exact wellFormed_entries_b_a.
  - apply perm_swap.
  - intros a b Ha Hb.
    repeat (apply elem_of_cons in Ha as [->|Ha]);
      repeat (apply elem_of_cons in Hb as [->|Hb]);
      try (now inversion Ha); try (now inversion Hb);
      try reflexivity; discriminate.
Defined.

Lemma empty_tree_lists_nothing_witness :
  LsTree stored_inflate insertionSort true [str "abcd"] [] emptyTreeFS = Done [].
Proof.
  apply (empty_tree_lists_nothing stored_inflate insertionSort
           insertionSort_Permutation true (str "abcd")
           (str "tree 0" ++ [NUL]) (str "tree 0") [] emptyTreeFS []).
  - repeat constructor; compute_done.
  - simpl. lia.
  - vm_compute. reflexivity.
  - reflexivity.
  - compute_done.
Defined.

Lemma missing_object_is_not_opened_witness :
  CatFile stored_inflate true [helloId] helloFS
  = Exit1 "Failed to open object" /\
  LsTree stored_inflate insertionSort true [helloId] [] helloFS
  = Exit1 "Failed to open object".
Proof.
  apply (missing_object_is_not_opened stored_inflate insertionSort true
           helloId [] helloFS []).
  - repeat constructor; compute_done.
  - simpl. lia.
  - vm_compute. reflexivity.
Defined.

Lemma file_in_place_of_fanout_directory_witness :
  CatFile stored_inflate true [str "ab"] fileFanoutFS
  = Exit1 "Failed to open object" /\
  LsTree stored_inflate insertionSort true [str "ab"] [] fileFanoutFS
  = Exit1 "Failed to open object".
Proof.
  apply (file_in_place_of_fanout_directory stored_inflate insertionSort true
           (str "ab") (str "tree 0" ++ [NUL]) [] fileFanoutFS []).
  - repeat constructor; compute_done.
  - reflexivity.
  - vm_compute. reflexivity.
Defined.

Lemma object_without_NUL_witness :
  CatFile stored_inflate true [str "abcd"] noNulFS
  = Exit1 "Invalid Git object format (no null byte found)" /\
  LsTree stored_inflate insertionSort true [str "abcd"] [] noNulFS
  = Exit1 "Invalid format".
Proof.
  apply (object_without_NUL stored_inflate insertionSort true (str "abcd")
           (str "tree 0") (str "tree 0") [] noNulFS []).
  - repeat constructor; compute_done.
  - simpl. lia.
  - vm_compute. reflexivity.
  - reflexivity.
  - compute_done.
Defined.

Lemma two_character_identifier_witness :
  CatFile stored_inflate true [str "95"] fanoutFS
  = Exit1 "Failed to create zlib reader" /\
  LsTree stored_inflate insertionSort true [str "95"] [] fanoutFS
  = Exit1 "Failed to read file".
Proof.
  apply (two_character_identifier stored_inflate insertionSort true
           (str "95") [] fanoutFS []).
  - repeat constructor; compute_done.
  - reflexivity.
  - vm_compute. reflexivity.
Defined.

Lemma ls_tree_lists_a_blob_witness :
  LsTree stored_inflate insertionSort true
    [blobId (treeBytes [entryB; entryA])] []
    (HashObject stored_deflate true [str "tree.bin"] treeFileFS).2
  = Done (printEntries true
            (insertionSort byName (map listed [entryB; entryA]))).
Proof.
  apply (ls_tree_lists_a_blob stored_deflate stored_inflate insertionSort
           (fun data => eq_refl) true [str "tree.bin"] treeFileFS).
  - apply injective_projections; [vm_compute|]; reflexivity.
  - vm_compute. reflexivity.
  - exact wellFormed_entries_b_a.
Defined.

Lemma arguments_after_identifier_witness :
  main stored_deflate stored_inflate insertionSort (fun fs => (Done [], fs))
    [str "mygit"; str "cat-file"; helloId; str "-p"] [] helloFS
  = (Ran (CatFile stored_inflate false [helloId] helloFS), helloFS) /\
  main stored_deflate stored_inflate insertionSort (fun fs => (Done [], fs))
    [str "mygit"; str "ls-tree"; helloId; str "-p"] [] helloFS
  = (Ran (LsTree stored_inflate insertionSort false [helloId] [] helloFS),
     helloFS).
Proof.
  apply (arguments_after_identifier stored_deflate stored_inflate
           insertionSort (fun fs => (Done [], fs)) (str "mygit") helloId
           [str "-p"] [] helloFS).
  discriminate.
Defined.

Lemma write_flag_after_file_witness :
  main stored_deflate stored_inflate insertionSort (fun fs => (Done [], fs))
    [str "mygit"; str "hash-object"; str "test.txt"; str "-w"] [] helloFS
  = (Ran (HashObject stored_deflate false [str "test.txt"] helloFS).1, helloFS).
Proof.
  apply (write_flag_after_file stored_deflate stored_inflate insertionSort
           (fun fs => (Done [], fs)) (str "mygit") (str "test.txt")
           [str "-w"] [] helloFS).
  discriminate.
Defined.
